(** * Automobile sales dashboard: report selection and aggregation

    A shallow embedding of [KCA_DV0101EN-Final-Assign-Part-2-Questions.py]:
    the module-level dataset ([df], [df_rec]), the three lookup tables, the two
    Dash callbacks ([disable_year], [display_graphs]) and the two aggregators
    ([recession_graphs], [year_graphs]).

    Modelling choices.
    - A row of the CSV is a record [SalesRecord]; a DataFrame of raw rows is a
      list of records in file order.
    - Numeric columns are exact rationals ([Q]); binary64 rounding is not
      represented.  Sums add left to right in row order.
    - Python dicts are [gmap string string].
    - The callbacks run in a small state-and-exception monad [M] over the
      module globals, so that "does not mutate the dataset" is a statement
      about the final state and [KeyError] is a value.
    - [pandas] and [plotly.express] calls are modelled by the list functions
      of the sections "pandas" and "plotly" below; a figure keeps its kind,
      title, axis titles, colour sequence and traces.  Hover text is not
      represented.  On a frame without rows, grouping yields no group and a
      plot yields a figure without points.
    - Boolean-mask indexing, column selection, [groupby(...).agg()] and
      [reset_index()] each build a new frame, so the item assignments of the
      source ([bar_df["Vehicle_Type"] = ...] and the like) change a frame
      local to the call; they are written as rebinding the local name. *)

From Stdlib Require Import QArith.
From Stdlib Require OrdersEx.
From stdpp Require Import base list strings gmap pretty sorting.

Local Open Scope Z_scope.

(** ** Data model *)

Record SalesRecord := {
  Year : Z;
  Month : string;
  Vehicle_Type : string;
  Automobile_Sales : Q;
  Advertising_Expenditure : Q;
  unemployment_rate : Q;
  Recession : Z;
}.

(** Module-level lookup tables (source lines 16-31). *)
Definition vehicle_type_names : gmap string string :=
  list_to_map [
    ("Supperminicar", "Super Mini Car");
    ("Mediumfamilycar", "Medium Family Car");
    ("Smallfamiliycar", "Small Family Car");
    ("Sports", "Sports Car");
    ("Executivecar", "Executive Car")
  ].

Definition label_names : gmap string string :=
  list_to_map [
    ("Automobile_Sales", "Automobile Sales");
    ("Vehicle_Type", "Vehicle Type");
    ("Advertising_Expenditure", "Advertising Expenditure");
    ("unemployment_rate", "Unemployment Rate")
  ].

Definition month_order : list string :=
  ["Jan"; "Feb"; "Mar"; "Apr"; "May"; "Jun";
   "Jul"; "Aug"; "Sep"; "Oct"; "Nov"; "Dec"].

(** ** Program state and control effects *)

(** The two module globals the callbacks read. *)
Record Globals := {
  df : list SalesRecord;
  df_rec : list SalesRecord;
}.

(** [df = pd.read_csv(URL)]; [df_rec = df[df["Recession"] == 1]]. *)
Definition startup (csv : list SalesRecord) : Globals :=
  let df := csv in
  {| df := df; df_rec := filter (λ r, Recession r = 1) df |}.

Inductive exn := KeyError (key : string).

(** A computation takes the globals and returns the globals after it together
    with an exception or a value. *)
Definition M (A : Type) : Type := Globals → Globals * (exn + A).

#[export] Instance M_ret : MRet M := λ A x g, (g, inr x).
#[export] Instance M_bind : MBind M := λ A B f m g,
  match m g with
  | (g', inl e) => (g', inl e)
  | (g', inr x) => f x g'
  end.

Definition raise {A} (e : exn) : M A := λ g, (g, inl e).
Definition global_df : M (list SalesRecord) := λ g, (g, inr (df g)).
Definition global_df_rec : M (list SalesRecord) := λ g, (g, inr (df_rec g)).

(** [for x in xs: f(x)] collecting the results; the first exception stops it. *)
Fixpoint for_each {A B} (f : A → M B) (xs : list A) : M (list B) :=
  match xs with
  | [] => mret []
  | x :: xs' => y ← f x; ys ← for_each f xs'; mret (y :: ys)
  end.

(** [d[k]]: subscripting a dict raises [KeyError] on a missing key. *)
Definition getitem (d : gmap string string) (k : string) : M string :=
  match d !! k with
  | Some v => mret v
  | None => raise (KeyError k)
  end.

(** [str(x)] of a callback argument: an integer or [None]. *)
Definition py_str (x : option Z) : string :=
  match x with
  | Some z => pretty z
  | None => "None"
  end.

(** ** pandas *)

Definition Qsum (l : list Q) : Q := foldl Qplus 0%Q l.

(** Mean of a non-empty group: its sum over its count. *)
Definition Qmean (l : list Q) : Q := (Qsum l / inject_Z (Z.of_nat (length l)))%Q.

Section groupby.
Context {K R : Type} (cmp : K → K → comparison) (key : R → K).

(** Put a row into the group of its key; groups stay in ascending key
    order and every group keeps its rows in frame order. *)
Fixpoint insert_group (r : R) (gs : list (K * list R)) : list (K * list R) :=
  match gs with
  | [] => [(key r, [r])]
  | (k, rs) :: gs' =>
      match cmp (key r) k with
      | Eq => (k, rs ++ [r]) :: gs'
      | Lt => (key r, [r]) :: gs
      | Gt => (k, rs) :: insert_group r gs'
      end
  end.

(** [frame.groupby(key)] with the default [sort=True]. *)
Definition groupby (rows : list R) : list (K * list R) :=
  foldl (λ gs r, insert_group r gs) [] rows.

(** [.sum().reset_index()] and [.mean().reset_index()] on the one value
    column [col] left after the column selection. *)
Definition agg_sum (col : R → Q) (gs : list (K * list R)) : list (K * Q) :=
  (λ g, (g.1, Qsum (col <$> g.2))) <$> gs.

Definition agg_mean (col : R → Q) (gs : list (K * list R)) : list (K * Q) :=
  (λ g, (g.1, Qmean (col <$> g.2))) <$> gs.
End groupby.

(** The declarative reading of a grouping: for each key of [keys], the rows
    of the frame that carry it, in frame order. *)
Definition grouped {K R} `{EqDecision K} (key : R → K) (keys : list K)
    (rows : list R) : list (K * list R) :=
  (λ k, (k, filter (λ r, key r = k) rows)) <$> keys.

Definition group_keys {K R} (cmp : K → K → comparison) (key : R → K)
    (rows : list R) : list K :=
  (groupby cmp key rows).*1.

(** Group-key orders: integers, strings (lexicographic by character code),
    and the pair (Vehicle_Type, unemployment_rate). *)
Definition cmp_str : string → string → comparison := OrdersEx.String_as_OT.compare.

Definition cmp_str_num (a b : string * Q) : comparison :=
  match cmp_str a.1 b.1 with
  | Eq => Qcompare a.2 b.2
  | c => c
  end.

(** A cell of a label or axis column. *)
Inductive cell :=
| CInt (z : Z)
| CNum (q : Q)
| CStr (s : string)
| CNaN.

(** [series.map(d)] with a dict: keys missing from [d] become NaN. *)
Definition Series_map (d : gmap string string) (k : string) : cell :=
  match d !! k with
  | Some v => CStr v
  | None => CNaN
  end.

(** ** plotly *)

Record trace := {
  name : string;
  legendgroup : string;
  points : list (cell * Q);
}.

Inductive kind := Line | Bar | Pie.

Record Figure := {
  fig_kind : kind;
  fig_title : string;
  xaxis_title : option string;
  yaxis_title : option string;
  color_discrete_sequence : list string;
  data : list trace;
}.

(** [labels=label_names]: a column keeps its own name unless relabelled. *)
Definition label (col : string) : string := default col (label_names !! col).

Definition single (pts : list (cell * Q)) : list trace :=
  [{| name := ""; legendgroup := ""; points := pts |}].

Definition px_line (pts : list (cell * Q)) (x y title : string)
    (colors : list string) : Figure :=
  {| fig_kind := Line; fig_title := title;
     xaxis_title := Some (label x); yaxis_title := Some (label y);
     color_discrete_sequence := colors; data := single pts |}.

Definition px_bar (pts : list (cell * Q)) (x y title : string)
    (colors : list string) : Figure :=
  {| fig_kind := Bar; fig_title := title;
     xaxis_title := Some (label x); yaxis_title := Some (label y);
     color_discrete_sequence := colors; data := single pts |}.

Definition px_pie (pts : list (cell * Q)) (title : string) : Figure :=
  {| fig_kind := Pie; fig_title := title;
     xaxis_title := None; yaxis_title := None;
     color_discrete_sequence := []; data := single pts |}.

(** [px.bar(..., color=c)]: one trace per value of the colour column, in
    order of first appearance, named after that value. *)
Fixpoint add_point (c : string) (p : cell * Q) (ts : list trace) : list trace :=
  match ts with
  | [] => [{| name := c; legendgroup := c; points := [p] |}]
  | t :: ts' =>
      if decide (name t = c)
      then {| name := name t; legendgroup := legendgroup t;
              points := points t ++ [p] |} :: ts'
      else t :: add_point c p ts'
  end.

Definition px_bar_color (rows : list (string * (cell * Q))) (x y title : string)
    : Figure :=
  {| fig_kind := Bar; fig_title := title;
     xaxis_title := Some (label x); yaxis_title := Some (label y);
     color_discrete_sequence := [];
     data := foldl (λ ts row, add_point row.1 row.2 ts) [] rows |}.

(** [fig.for_each_trace(fn)]: [fn] updates every trace in turn. *)
Definition for_each_trace (fn : trace → M trace) (fig : Figure) : M Figure :=
  ts ← for_each fn (data fig);
  mret {| fig_kind := fig_kind fig; fig_title := fig_title fig;
          xaxis_title := xaxis_title fig; yaxis_title := yaxis_title fig;
          color_discrete_sequence := color_discrete_sequence fig;
          data := ts |}.

(** ** The callbacks *)

(** Source lines 111-115.  The callback argument is a string or [None]. *)
Definition disable_year (report_value : option string) : bool :=
  if decide (report_value = Some "Recession") then true else false.

(** The lambda of source lines 198-202: [t.update(name=..., legendgroup=...)]
    with both values looked up by subscript.  The third subscript of the
    source, inside the hover text, uses the same key and is evaluated last. *)
Definition update_trace (t : trace) : M trace :=
  new_name ← getitem vehicle_type_names (name t);
  new_group ← getitem vehicle_type_names (name t);
  mret {| name := new_name; legendgroup := new_group; points := points t |}.

(** Source lines 136-205. *)
Definition recession_graphs : M (list Figure) :=
  df_rec ← global_df_rec;
  let fig_line :=
    px_line
      (prod_map CInt id <$> agg_mean Automobile_Sales (groupby Z.compare Year df_rec))
      "Year" "Automobile_Sales"
      "Average Automobile Sales by Year during Recession Periods"
      ["#C45A9A"] in
  let bar_df := agg_mean Automobile_Sales (groupby cmp_str Vehicle_Type df_rec) in
  let bar_df := prod_map (Series_map vehicle_type_names) id <$> bar_df in
  let fig_bar_1 :=
    px_bar bar_df "Vehicle_Type" "Automobile_Sales"
      "Average Automobile Sales by Vehicle Type during Recession Periods"
      ["#C45A9A"] in
  let pie_df := agg_sum Advertising_Expenditure (groupby cmp_str Vehicle_Type df_rec) in
  let pie_df := prod_map (Series_map vehicle_type_names) id <$> pie_df in
  let fig_pie :=
    px_pie pie_df
      "Total Advertising Expenditure by Vehicle Type during Recession Periods" in
  let bar2_df :=
    agg_sum Automobile_Sales
      (groupby cmp_str_num (λ r, (Vehicle_Type r, unemployment_rate r)) df_rec) in
  let fig_bar_2 :=
    px_bar_color ((λ row, (row.1.1, (CNum row.1.2, row.2))) <$> bar2_df)
      "unemployment_rate" "Automobile_Sales"
      "Automobile Sales by Vehicle Type Per Unemployment Rate during Recession Periods" in
  fig_bar_2 ← for_each_trace update_trace fig_bar_2;
  mret [fig_line; fig_bar_1; fig_pie; fig_bar_2].

(** Source lines 208-268. *)
Definition year_graphs (entered_year : option Z) : M (list Figure) :=
  df ← global_df;
  let df_year := filter (λ r, Some (Year r) = entered_year) df in
  let df_line := agg_mean Automobile_Sales (groupby Z.compare Year df) in
  let fig_line :=
    px_line (prod_map CInt id <$> df_line) "Year" "Automobile_Sales"
      "Yearly Average Automobile Sales" ["#C45A9A"] in
  let fig_line_2 :=
    px_line ((λ r, (CStr (Month r), Automobile_Sales r)) <$> df_year)
      "Month" "Automobile_Sales"
      ("Total Automobile Sales per Month in " +:+ py_str entered_year)
      ["#C45A9A"] in
  let df_bar := agg_sum Automobile_Sales (groupby cmp_str Vehicle_Type df_year) in
  let df_bar := prod_map id (λ s, (s / 12)%Q) <$> df_bar in
  let df_bar := prod_map (Series_map vehicle_type_names) id <$> df_bar in
  let fig_bar :=
    px_bar df_bar "Vehicle_Type" "Automobile_Sales"
      ("Average Monthly Automobile Sales by Vehicle Type in " +:+ py_str entered_year)
      ["#C45A9A"] in
  let pie_df := agg_sum Advertising_Expenditure (groupby cmp_str Vehicle_Type df_year) in
  let pie_df := prod_map (Series_map vehicle_type_names) id <$> pie_df in
  let fig_pie :=
    px_pie pie_df
      ("Total Advertising Expenditure by Vehicle Type in " +:+ py_str entered_year) in
  mret [fig_line; fig_line_2; fig_bar; fig_pie].

(** Source lines 129-133. *)
Definition display_graphs (report_value : option string) (entered_year : option Z)
    : M (list Figure) :=
  if decide (report_value = Some "Recession")
  then recession_graphs
  else year_graphs entered_year.

(** ** Sample data *)

Definition row (y : Z) (m v : string) (sales adv unemp : Q) (rec : Z) : SalesRecord :=
  {| Year := y; Month := m; Vehicle_Type := v; Automobile_Sales := sales;
     Advertising_Expenditure := adv; unemployment_rate := unemp; Recession := rec |}.

(** The two-row fixture of the specification's example scenario. *)
Definition fixture : list SalesRecord :=
  [ row 2005 "Jan" "Sports" 100 10 5 1;
    row 2005 "Feb" "Sports" 200 20 6 0 ].

(** A dataset with a raw label outside the display-name table, in a row that
    is not a recession row. *)
Definition truck_csv : list SalesRecord :=
  [ row 2005 "Jan" "Truck" 100 10 5 0 ].

(** The same label in a recession row. *)
Definition truck_recession_csv : list SalesRecord :=
  [ row 2005 "Jan" "Sports" 50 5 4 1;
    row 2005 "Feb" "Truck" 100 10 5 1 ].

(** Two rows of one year that share a month. *)
Definition two_jan_csv : list SalesRecord :=
  [ row 2005 "Jan" "Sports" 100 10 5 0;
    row 2005 "Jan" "Executivecar" 200 20 5 0 ].

(** Four rows over two years and two vehicle types; the last is not a
    recession row. *)
Definition sample_csv : list SalesRecord :=
  [ row 2006 "Jan" "Sports" 300 30 6 1;
    row 2005 "Jan" "Sports" 100 10 5 1;
    row 2005 "Feb" "Executivecar" 200 20 5 1;
    row 2006 "Feb" "Sports" 50 5 7 0 ].

(** ** Vocabulary of the properties *)

(** A computation is read-only when it hands back the globals it was given. *)
Definition read_only {A} (m : M A) : Prop := ∀ g, (m g).1 = g.

(** Laws of a group-key order. *)
Class OrderLaws {K} (cmp : K → K → comparison) : Prop := {
  cmp_eq a b : cmp a b = Eq ↔ a = b;
  cmp_antisym a b : cmp b a = CompOpp (cmp a b);
  cmp_trans a b c : cmp a b = Lt → cmp b c = Lt → cmp a c = Lt;
}.

(** Reference aggregates, written over the raw rows of the dataset: the sum
    and the mean of a column over the rows that satisfy [P]. *)
Definition sum_of (col : SalesRecord → Q) (P : SalesRecord → Prop)
    `{∀ r, Decision (P r)} (csv : list SalesRecord) : Q :=
  Qsum (col <$> filter P csv).

Definition mean_of (col : SalesRecord → Q) (P : SalesRecord → Prop)
    `{∀ r, Decision (P r)} (csv : list SalesRecord) : Q :=
  Qmean (col <$> filter P csv).

(** Ascending and duplicate-free key lists. *)
Definition ascending {K} (cmp : K → K → comparison) (keys : list K) : Prop :=
  StronglySorted (λ a b, cmp a b = Lt) keys ∧ NoDup keys.

(** The data-model invariant on raw labels: every row's Vehicle_Type is a
    key of the display-name table. *)
Definition known_labels (csv : list SalesRecord) : Prop :=
  Forall (λ r, is_Some (vehicle_type_names !! Vehicle_Type r)) csv.

(** Its failure: some row carries a label outside the table. *)
Definition unmapped_label (csv : list SalesRecord) : Prop :=
  ∃ r, r ∈ csv ∧ vehicle_type_names !! Vehicle_Type r = None.

(** An outcome that is an exception. *)
Definition raises {A} (out : Globals * (exn + A)) : Prop := ∃ e, out.2 = inl e.

(** The line of yearly means over the whole dataset: one point per year that
    occurs, the mean of Automobile_Sales over all rows of that year. *)
Definition yearly_mean_points (csv : list SalesRecord) (years : list Z)
    : list (cell * Q) :=
  (λ y, (CInt y, mean_of Automobile_Sales (λ r, Year r = y) csv)) <$> years.

(** The per-month totals of a year. *)
Definition month_total (csv : list SalesRecord) (y : Z) (m : string) : Q :=
  sum_of Automobile_Sales (λ r, Year r = y ∧ Month r = m) csv.

(** ** The year selector of the layout *)

(** [series.unique()]: the distinct values in order of first appearance. *)
Definition Series_unique {A} `{EqDecision A} (l : list A) : list A :=
  foldl (λ seen x, if decide (x ∈ seen) then seen else seen ++ [x]) [] l.

(** [sorted(xs)] on integers: ascending. *)
Definition sorted (l : list Z) : list Z := merge_sort Z.le l.

(** The options of the year dropdown, source line 86:
    [sorted(df.Year.unique())]. *)
Definition year_options (g : Globals) : list Z :=
  sorted (Series_unique (Year <$> df g)).

(** ** Further vocabulary *)

(** Numeric equality of rationals is decidable. *)
#[export] Instance Qeq_decision (x y : Q) : Decision (x == y)%Q := Qeq_dec x y.

(** Laws of a group-key order whose [Eq] is an equivalence coarser than
    equality, as numeric comparison of rationals is. *)
Class WeakOrderLaws {K} (cmp : K → K → comparison) : Prop := {
  wcmp_refl a : cmp a a = Eq;
  wcmp_antisym a b : cmp b a = CompOpp (cmp a b);
  wcmp_trans a b c : cmp a b = Lt → cmp b c = Lt → cmp a c = Lt;
  wcmp_congr a b c : cmp a b = Eq → cmp a c = cmp b c;
}.

(** The declarative reading of a grouping under such an order: for each key
    of [keys], the rows whose key compares equal to it. *)
Definition wgrouped {K R} (cmp : K → K → comparison) (key : R → K)
    (keys : list K) (rows : list R) : list (K * list R) :=
  (λ k, (k, filter (λ r, cmp (key r) k = Eq) rows)) <$> keys.

(** * Properties *)

(** ** The model on concrete data *)

Example groupby_sorts_keys :
  groupby Z.compare Year sample_csv
  = [ (2005, [row 2005 "Jan" "Sports" 100 10 5 1;
              row 2005 "Feb" "Executivecar" 200 20 5 1]);
      (2006, [row 2006 "Jan" "Sports" 300 30 6 1;
              row 2006 "Feb" "Sports" 50 5 7 0]) ].
Proof. reflexivity. Qed.

Example recession_graphs_sample :
  sum_map id (fmap data) (recession_graphs (startup sample_csv)).2
  = inr [ single [(CInt 2005, 300 # 2); (CInt 2006, 300 # 1)];
          single [(CStr "Executive Car", 200 # 1); (CStr "Sports Car", 400 # 2)];
          single [(CStr "Executive Car", 20 # 1); (CStr "Sports Car", 40 # 1)];
          [ {| name := "Executive Car"; legendgroup := "Executive Car";
               points := [(CNum 5, 200 # 1)] |};
            {| name := "Sports Car"; legendgroup := "Sports Car";
               points := [(CNum 5, 100 # 1); (CNum 6, 300 # 1)] |} ] ].
Proof. vm_compute. reflexivity. Qed.

Example year_graphs_sample :
  sum_map id (fmap data) (year_graphs (Some 2006) (startup sample_csv)).2
  = inr [ single [(CInt 2005, 300 # 2); (CInt 2006, 350 # 2)];
          single [(CStr "Jan", 300 # 1); (CStr "Feb", 50 # 1)];
          single [(CStr "Sports Car", 350 # 12)];
          single [(CStr "Sports Car", 35 # 1)] ].
Proof. vm_compute. reflexivity. Qed.

Example recession_graphs_raises_on_truck :
  (recession_graphs (startup truck_recession_csv)).2 = inl (KeyError "Truck").
Proof. vm_compute. reflexivity. Qed.

Example year_graphs_shows_truck_as_NaN :
  sum_map id (fmap data) (year_graphs (Some 2005) (startup truck_recession_csv)).2
  = inr [ single [(CInt 2005, 150 # 2)];
          single [(CStr "Jan", 50 # 1); (CStr "Feb", 100 # 1)];
          single [(CStr "Sports Car", 50 # 12); (CNaN, 100 # 12)];
          single [(CStr "Sports Car", 5 # 1); (CNaN, 10 # 1)] ].
Proof. vm_compute. reflexivity. Qed.

Example disable_year_values :
  disable_year (Some "Recession") = true
  ∧ disable_year (Some "Yearly") = false
  ∧ disable_year None = false.
Proof. done. Qed.

(** ** The state-and-exception monad *)

Lemma M_bind_inr {A B} (m : M A) (f : A → M B) g g' x :
  m g = (g', inr x) → (m ≫= f) g = f x g'.
Proof. intros H. unfold mbind, M_bind. by rewrite H. Qed.

Lemma M_bind_inl {A B} (m : M A) (f : A → M B) g g' e :
  m g = (g', inl e) → (m ≫= f) g = (g', inl e).
Proof. intros H. unfold mbind, M_bind. by rewrite H. Qed.

Lemma read_only_ret {A} (x : A) : read_only (mret x : M A).
Proof. by intros g. Qed.

Lemma read_only_raise {A} e : read_only (raise e : M A).
Proof. by intros g. Qed.

Lemma read_only_bind {A B} (m : M A) (f : A → M B) :
  read_only m → (∀ x, read_only (f x)) → read_only (m ≫= f).
Proof.
  intros Hm Hf g. unfold mbind, M_bind.
  specialize (Hm g). destruct (m g) as [g' [e|x]]; simpl in *; subst; [done|].
  apply Hf.
Qed.

Lemma read_only_global_df : read_only global_df.
Proof. by intros g. Qed.

Lemma read_only_global_df_rec : read_only global_df_rec.
Proof. by intros g. Qed.

Lemma read_only_getitem d k : read_only (getitem d k).
Proof. unfold getitem. destruct (d !! k); [apply read_only_ret | apply read_only_raise]. Qed.

Lemma read_only_for_each {A B} (f : A → M B) xs :
  (∀ x, read_only (f x)) → read_only (for_each f xs).
Proof.
  intros Hf. induction xs as [|x xs IH]; simpl; [apply read_only_ret|].
  apply read_only_bind; [apply Hf | intros y].
  apply read_only_bind; [apply IH | intros ys]. apply read_only_ret.
Qed.

Lemma read_only_for_each_trace fn fig :
  (∀ t, read_only (fn t)) → read_only (for_each_trace fn fig).
Proof.
  intros Hfn. unfold for_each_trace.
  apply read_only_bind; [by apply read_only_for_each | intros ts].
  apply read_only_ret.
Qed.

(** ** Group-key orders *)

#[export] Instance Z_compare_laws : OrderLaws Z.compare.
Proof.
  split.
  - apply Z.compare_eq_iff.
  - intros a b. apply Z.compare_antisym.
  - intros a b c. rewrite !Z.compare_lt_iff. lia.
Qed.

Lemma cmp_str_refl a : cmp_str a a = Eq.
Proof.
  unfold cmp_str. destruct (OrdersEx.String_as_OT.compare_spec a a) as [_|H|H]; [done|..];
    by apply (irreflexivity OrdersEx.String_as_OT.lt) in H.
Qed.

#[export] Instance cmp_str_laws : OrderLaws cmp_str.
Proof.
  split.
  - intros a b. split; [|intros ->; apply cmp_str_refl].
    unfold cmp_str. by destruct (OrdersEx.String_as_OT.compare_spec a b).
  - intros a b. unfold cmp_str.
    assert (Hirr : ∀ x, ¬ OrdersEx.String_as_OT.lt x x)
      by (intros x; apply (irreflexivity OrdersEx.String_as_OT.lt)).
    pose proof (transitivity (R:=OrdersEx.String_as_OT.lt)) as Htr.
    destruct (OrdersEx.String_as_OT.compare_spec a b) as [E|H1|H1],
             (OrdersEx.String_as_OT.compare_spec b a) as [E'|H2|H2];
      unfold OrdersEx.String_as_OT.eq in *; simpl; try done; subst;
      exfalso; first [ by eapply Hirr | by eapply Hirr, Htr ].
  - intros a b c Hab Hbc.
    exact (transitivity (R:=OrdersEx.String_as_OT.lt) Hab Hbc).
Qed.

Lemma cmp_str_num_refl a : cmp_str_num a a = Eq.
Proof.
  unfold cmp_str_num. rewrite cmp_str_refl. apply Qeq_alt. reflexivity.
Qed.

Lemma cmp_str_num_Eq a b : cmp_str_num a b = Eq → a.1 = b.1.
Proof.
  unfold cmp_str_num. destruct (cmp_str a.1 b.1) eqn:E; try done.
  intros _. by apply cmp_eq.
Qed.

(** ** Grouping *)

Lemma filter_none {A} (P : A → Prop) `{∀ x, Decision (P x)} (l : list A) :
  (∀ x, x ∈ l → ¬ P x) → filter P l = [].
Proof.
  induction l as [|x l IH]; intros H'; [done|].
  rewrite filter_cons_False by (apply H'; left).
  apply IH. intros y Hy. apply H'. by right.
Qed.

Lemma sorted_NoDup {K} (R : K → K → Prop) (l : list K) :
  (∀ x, ¬ R x x) → StronglySorted R l → NoDup l.
Proof.
  intros Hirr. induction 1 as [|x l _ IH Hx]; constructor; [|done].
  intros Hin. rewrite Forall_forall in Hx. by apply (Hirr x), Hx.
Qed.

Section groupby_facts.
Context {K R : Type} (cmp : K → K → comparison) (key : R → K).

Lemma groupby_snoc rows r :
  groupby cmp key (rows ++ [r]) = insert_group cmp key r (groupby cmp key rows).
Proof. unfold groupby. by rewrite foldl_app. Qed.

(** Facts that need no law of the order. *)
Lemma insert_group_keys r gs k :
  k ∈ (insert_group cmp key r gs).*1 → k = key r ∨ k ∈ gs.*1.
Proof.
  induction gs as [|[k' rs] gs IH]; simpl.
  - rewrite list_elem_of_singleton. auto.
  - destruct (cmp (key r) k'); simpl; rewrite ?elem_of_cons; [tauto|tauto|].
    intros [->|Hk]; [auto|]. destruct (IH Hk); auto.
Qed.

Lemma insert_group_keeps r gs k :
  k ∈ gs.*1 → k ∈ (insert_group cmp key r gs).*1.
Proof.
  induction gs as [|[k' rs] gs IH]; simpl; [by intros ?%elem_of_nil|].
  destruct (cmp (key r) k'); simpl; rewrite ?elem_of_cons; [tauto|tauto|].
  intros [->|Hk]; auto.
Qed.

Lemma insert_group_covers r gs :
  cmp (key r) (key r) = Eq →
  ∃ k, k ∈ (insert_group cmp key r gs).*1 ∧ cmp (key r) k = Eq.
Proof.
  intros Hrefl. induction gs as [|[k' rs] gs IH]; simpl.
  - exists (key r). split; [left|done].
  - destruct (cmp (key r) k') eqn:E; simpl.
    + exists k'. split; [left|done].
    + exists (key r). split; [left|done].
    + destruct IH as (k & Hk & Hc). exists k. split; [by right|done].
Qed.

Lemma groupby_keys_from_rows rows k :
  k ∈ (groupby cmp key rows).*1 → ∃ r, r ∈ rows ∧ key r = k.
Proof.
  induction rows as [|r rows IH] using rev_ind; [by intros ?%elem_of_nil|].
  rewrite groupby_snoc. intros [->|Hk]%insert_group_keys.
  - exists r. split; [|done]. apply elem_of_app. right. left.
  - destruct (IH Hk) as (r' & Hr' & <-). exists r'. split; [|done].
    apply elem_of_app. by left.
Qed.

Lemma groupby_covers rows r :
  (∀ k, cmp k k = Eq) → r ∈ rows →
  ∃ k, k ∈ (groupby cmp key rows).*1 ∧ cmp (key r) k = Eq.
Proof.
  intros Hrefl. induction rows as [|r' rows IH] using rev_ind;
    [by intros ?%elem_of_nil|].
  rewrite groupby_snoc, elem_of_app, list_elem_of_singleton. intros [Hr| ->].
  - destruct (IH Hr) as (k & Hk & Hc). exists k.
    split; [by apply insert_group_keeps|done].
  - by apply insert_group_covers.
Qed.

(** With a lawful order, grouping is the declarative split: one group per
    key that occurs, keys ascending, each group the rows with that key. *)
Context `{EqDecision K} `{!OrderLaws cmp}.

Lemma cmp_refl a : cmp a a = Eq.
Proof. by apply cmp_eq. Qed.

Lemma cmp_Lt_ne a b : cmp a b = Lt → a ≠ b.
Proof. intros H ->. by rewrite cmp_refl in H. Qed.

Lemma grouped_keys keys rows : (grouped key keys rows).*1 = keys.
Proof. unfold grouped. rewrite <- list_fmap_compose. apply list_fmap_id. Qed.

Lemma grouped_snoc_other keys rows r :
  key r ∉ keys → grouped key keys (rows ++ [r]) = grouped key keys rows.
Proof.
  intros Hr. unfold grouped. apply list_fmap_ext. intros i k Hk. f_equal.
  rewrite filter_app, filter_cons_False, filter_nil, app_nil_r; [done|].
  intros Heq. apply Hr. rewrite Heq. by eapply list_elem_of_lookup_2.
Qed.

Lemma grouped_cons k keys rows :
  grouped key (k :: keys) rows
  = (k, filter (λ r, key r = k) rows) :: grouped key keys rows.
Proof. done. Qed.

Lemma filter_key_snoc_eq k rows r :
  key r = k →
  filter (λ r', key r' = k) (rows ++ [r]) = filter (λ r', key r' = k) rows ++ [r].
Proof. intros Hk. by rewrite filter_app, filter_cons_True, filter_nil. Qed.

Lemma filter_key_snoc_ne k rows r :
  key r ≠ k →
  filter (λ r', key r' = k) (rows ++ [r]) = filter (λ r', key r' = k) rows.
Proof.
  intros Hk. by rewrite filter_app, filter_cons_False, filter_nil, app_nil_r.
Qed.

Lemma filter_key_fresh (keys : list K) rows r :
  ((∃ r', r' ∈ rows ∧ key r' = key r) → key r ∈ keys) → key r ∉ keys →
  filter (λ r', key r' = key r) (rows ++ [r]) = [r].
Proof.
  intros Hin Hnot. rewrite filter_key_snoc_eq by done.
  rewrite filter_none; [done|]. intros r' Hr' Hk. apply Hnot, Hin. eauto.
Qed.

Lemma insert_group_grouped keys rows r :
  StronglySorted (λ a b, cmp a b = Lt) keys →
  ((∃ r', r' ∈ rows ∧ key r' = key r) → key r ∈ keys) →
  ∃ keys', insert_group cmp key r (grouped key keys rows)
             = grouped key keys' (rows ++ [r])
           ∧ StronglySorted (λ a b, cmp a b = Lt) keys'
           ∧ (∀ k, k ∈ keys' ↔ k = key r ∨ k ∈ keys).
Proof.
  induction keys as [|k keys IH]; intros Hs Hin.
  - exists [key r]. split_and!.
    + rewrite grouped_cons. cbn. do 2 f_equal. symmetry.
      apply (filter_key_fresh []); [done|apply not_elem_of_nil].
    + repeat constructor.
    + intros k. rewrite list_elem_of_singleton, elem_of_nil. tauto.
  - apply StronglySorted_inv in Hs as [Hs Hk]. rewrite Forall_forall in Hk.
    rewrite grouped_cons. cbn [insert_group]. destruct (cmp (key r) k) eqn:E.
    + apply cmp_eq in E. exists (k :: keys). split_and!.
      * rewrite grouped_cons, filter_key_snoc_eq by done. f_equal.
        symmetry. apply grouped_snoc_other. rewrite E.
        intros Hk'. by apply Hk, cmp_Lt_ne in Hk'.
      * constructor; [done|]. by apply Forall_forall.
      * intros k'. rewrite E, elem_of_cons. tauto.
    + assert (key r ∉ k :: keys) as Hnot.
      { rewrite elem_of_cons. intros [Heq|Hk'].
        - by apply cmp_Lt_ne in E.
        - apply Hk in Hk'.
          by apply (cmp_Lt_ne (key r) (key r)); [apply (cmp_trans _ k)|]. }
      exists (key r :: k :: keys). split_and!.
      * rewrite (grouped_cons (key r)), (filter_key_fresh (k :: keys)) by done.
        f_equal. rewrite <- grouped_cons. symmetry. by apply grouped_snoc_other.
      * constructor; [by constructor; [|apply Forall_forall]|].
        constructor; [done|]. apply Forall_forall. intros k' Hk'.
        by apply (cmp_trans _ k), Hk.
      * intros k'. rewrite (elem_of_cons (k :: keys)). tauto.
    + assert (cmp k (key r) = Lt) as E' by (by rewrite cmp_antisym, E).
      destruct (IH Hs) as (keys' & Heq & Hs' & Hin').
      { intros Hex. apply Hin in Hex. apply elem_of_cons in Hex as [Hex|Hex]; [|done].
        by apply cmp_Lt_ne in E'. }
      exists (k :: keys'). split_and!.
      * rewrite Heq, grouped_cons, filter_key_snoc_ne; [done|].
        intros Hk'. by apply cmp_Lt_ne in E'.
      * constructor; [done|]. apply Forall_forall. intros k' [->|Hk']%Hin'; auto.
      * intros k'. rewrite !elem_of_cons, Hin'. tauto.
Qed.

Lemma groupby_grouped_ex rows :
  ∃ keys, groupby cmp key rows = grouped key keys rows
          ∧ StronglySorted (λ a b, cmp a b = Lt) keys
          ∧ (∀ k, k ∈ keys ↔ ∃ r, r ∈ rows ∧ key r = k).
Proof.
  induction rows as [|r rows IH] using rev_ind.
  - exists []. split_and!; [done|constructor|].
    intros k. split; [by intros ?%elem_of_nil|]. by intros (r & ?%elem_of_nil & _).
  - destruct IH as (keys & Heq & Hs & Hin).
    destruct (insert_group_grouped keys rows r Hs) as (keys' & Heq' & Hs' & Hin').
    { intros Hex. by apply Hin. }
    exists keys'. rewrite groupby_snoc, Heq. split_and!; [done..|].
    intros k. rewrite Hin', Hin. split.
    + intros [->|(r' & Hr' & <-)].
      * exists r. split; [|done]. apply elem_of_app. right. left.
      * exists r'. split; [|done]. apply elem_of_app. by left.
    + intros (r' & [Hr'| ->%list_elem_of_singleton]%elem_of_app & <-); eauto.
Qed.

Theorem groupby_grouped rows :
  groupby cmp key rows = grouped key (group_keys cmp key rows) rows
  ∧ StronglySorted (λ a b, cmp a b = Lt) (group_keys cmp key rows)
  ∧ NoDup (group_keys cmp key rows)
  ∧ (∀ k, k ∈ group_keys cmp key rows ↔ ∃ r, r ∈ rows ∧ key r = k).
Proof.
  destruct (groupby_grouped_ex rows) as (keys & Heq & Hs & Hin).
  assert (group_keys cmp key rows = keys) as ->
    by (unfold group_keys; rewrite Heq; apply grouped_keys).
  split_and!; try done.
  eapply sorted_NoDup; [|done]. intros x Hx. by apply cmp_Lt_ne in Hx.
Qed.

Lemma agg_sum_groupby col rows :
  agg_sum col (groupby cmp key rows)
  = (λ k, (k, Qsum (col <$> filter (λ r, key r = k) rows)))
      <$> group_keys cmp key rows.
Proof.
  destruct (groupby_grouped rows) as (Heq & _). rewrite Heq at 1.
  unfold agg_sum, grouped. by rewrite <- list_fmap_compose.
Qed.

Lemma agg_mean_groupby col rows :
  agg_mean col (groupby cmp key rows)
  = (λ k, (k, Qmean (col <$> filter (λ r, key r = k) rows)))
      <$> group_keys cmp key rows.
Proof.
  destruct (groupby_grouped rows) as (Heq & _). rewrite Heq at 1.
  unfold agg_mean, grouped. by rewrite <- list_fmap_compose.
Qed.
End groupby_facts.

(** ** Traces of the coloured bar chart *)

Lemma add_point_names c p ts c' :
  c' ∈ name <$> add_point c p ts ↔ c' = c ∨ c' ∈ name <$> ts.
Proof.
  induction ts as [|t ts IH]; simpl.
  - rewrite list_elem_of_singleton, elem_of_nil. tauto.
  - destruct (decide (name t = c)) as [<-|Hne]; simpl; rewrite !elem_of_cons.
    + tauto.
    + rewrite IH. tauto.
Qed.

Lemma px_bar_color_names rows x y title c :
  c ∈ name <$> data (px_bar_color rows x y title) ↔ c ∈ rows.*1.
Proof.
  simpl. induction rows as [|row rows IH] using rev_ind.
  - simpl. by rewrite !elem_of_nil.
  - rewrite foldl_app, fmap_app, elem_of_app. simpl.
    rewrite add_point_names, IH, list_elem_of_singleton. tauto.
Qed.

(** The names of the traces are the Vehicle_Type values of the frame. *)
Lemma bar2_names (d : list SalesRecord) x y title c :
  c ∈ name <$> data (px_bar_color
        ((λ row, (row.1.1, (CNum row.1.2, row.2)))
           <$> agg_sum Automobile_Sales
                 (groupby cmp_str_num (λ r, (Vehicle_Type r, unemployment_rate r)) d))
        x y title)
  ↔ ∃ r, r ∈ d ∧ Vehicle_Type r = c.
Proof.
  rewrite px_bar_color_names. unfold agg_sum.
  rewrite <- !list_fmap_compose, list_elem_of_fmap. simpl. split.
  - intros ([k rs] & -> & Hin). simpl.
    destruct (groupby_keys_from_rows cmp_str_num
                (λ r, (Vehicle_Type r, unemployment_rate r)) d k) as (r & Hr & Hk).
    { apply list_elem_of_fmap. by exists (k, rs). }
    exists r. split; [done|]. by rewrite <- Hk.
  - intros (r & Hr & <-).
    destruct (groupby_covers cmp_str_num (λ r, (Vehicle_Type r, unemployment_rate r)) d r)
      as (k & Hk & Hc); [apply cmp_str_num_refl|done|].
    apply list_elem_of_fmap in Hk as ([k' rs] & -> & Hin).
    exists (k', rs). split; [|done]. by apply cmp_str_num_Eq in Hc.
Qed.

(** ** Renaming the traces *)

Lemma update_trace_Some t g v :
  vehicle_type_names !! name t = Some v →
  update_trace t g = (g, inr {| name := v; legendgroup := v; points := points t |}).
Proof. intros H. unfold update_trace, getitem. by rewrite H. Qed.

Lemma update_trace_None t g :
  vehicle_type_names !! name t = None →
  update_trace t g = (g, inl (KeyError (name t))).
Proof. intros H. unfold update_trace, getitem. by rewrite H. Qed.

Lemma for_each_update_ok ts g :
  (∀ t, t ∈ ts → is_Some (vehicle_type_names !! name t)) →
  ∃ ts', for_each update_trace ts g = (g, inr ts').
Proof.
  induction ts as [|t ts IH]; intros Hts; simpl; [by eexists|].
  destruct (Hts t) as [v Hv]; [left|].
  destruct IH as [ts' Hts']; [intros t' Ht'; apply Hts; by right|].
  eexists. erewrite M_bind_inr by (by apply update_trace_Some).
  by erewrite M_bind_inr by done.
Qed.

Lemma for_each_update_fail ts g :
  (∃ t, t ∈ ts ∧ vehicle_type_names !! name t = None) →
  ∃ k, for_each update_trace ts g = (g, inl (KeyError k))
       ∧ vehicle_type_names !! k = None ∧ k ∈ name <$> ts.
Proof.
  induction ts as [|t ts IH]; intros (t' & Hin & Hnone); [by apply elem_of_nil in Hin|].
  simpl. destruct (vehicle_type_names !! name t) as [v|] eqn:Hv.
  - apply elem_of_cons in Hin as [->|Hin]; [congruence|].
    destruct IH as (k & Hk & Hk1 & Hk2); [by eauto|].
    exists k. split_and!; [|done|by right].
    erewrite M_bind_inr by (by apply update_trace_Some).
    by erewrite M_bind_inl by done.
  - exists (name t). split_and!; [|done|by left].
    by erewrite M_bind_inl by (by apply update_trace_None).
Qed.

Lemma for_each_trace_ok fig g :
  (∀ c, c ∈ name <$> data fig → is_Some (vehicle_type_names !! c)) →
  ∃ fig', for_each_trace update_trace fig g = (g, inr fig').
Proof.
  intros Hfig. destruct (for_each_update_ok (data fig) g) as [ts Hts].
  { intros t Ht. apply Hfig, list_elem_of_fmap. eauto. }
  eexists. unfold for_each_trace. by erewrite M_bind_inr by done.
Qed.

Lemma for_each_trace_fail fig g :
  (∃ c, c ∈ name <$> data fig ∧ vehicle_type_names !! c = None) →
  ∃ k, for_each_trace update_trace fig g = (g, inl (KeyError k))
       ∧ vehicle_type_names !! k = None ∧ k ∈ name <$> data fig.
Proof.
  intros (c & (t & -> & Ht)%list_elem_of_fmap & Hc).
  destruct (for_each_update_fail (data fig) g) as (k & Hk & Hk1 & Hk2); [by eauto|].
  exists k. split_and!; [|done..]. unfold for_each_trace. by erewrite M_bind_inl by done.
Qed.

(** ** The year selector *)

(** C5. [disable_year] answers [true] exactly for the report value
    "Recession" and [false] for every other value ([None] and unknown strings
    included); so choosing Recession disables the year control and choosing
    Yearly enables it. *)
Theorem disable_year_iff_recession (report_value : option string) :
  (disable_year report_value = true ↔ report_value = Some "Recession")
  ∧ (disable_year report_value = false ↔ report_value ≠ Some "Recession")
  ∧ disable_year (Some "Recession") = true
  ∧ disable_year (Some "Yearly") = false.
Proof.
  unfold disable_year. split_and!; [| |done..];
    destruct (decide (report_value = Some "Recession")); naive_solver.
Qed.

(** ** Dispatch *)

(** C9. Every report value other than exactly "Recession" ([None] and unknown
    strings included) runs [year_graphs] on the entered year; the value
    "Recession" runs [recession_graphs]. *)
Theorem display_graphs_dispatch (report_value : option string) (entered_year : option Z)
    (Hother : report_value ≠ Some "Recession") :
  display_graphs report_value entered_year = year_graphs entered_year
  ∧ display_graphs (Some "Recession") entered_year = recession_graphs.
Proof.
  unfold display_graphs. split; [|done].
  by destruct (decide (report_value = Some "Recession")).
Qed.

Lemma display_graphs_dispatch_witness :
  display_graphs None (Some 2005) = year_graphs (Some 2005)
  ∧ display_graphs (Some "recession") None = year_graphs None
  ∧ display_graphs (Some "Recession") (Some 2005) = recession_graphs.
Proof.
  split_and!.
  - apply (display_graphs_dispatch None (Some 2005)). done.
  - apply (display_graphs_dispatch (Some "recession") None). done.
  - apply (display_graphs_dispatch None (Some 2005)). done.
Defined.

(** ** The dataset is only read *)

Create HintDb readonly.
#[local] Hint Resolve read_only_ret read_only_raise read_only_bind
  read_only_global_df read_only_global_df_rec read_only_getitem
  read_only_for_each read_only_for_each_trace : readonly.

Lemma read_only_update_trace t : read_only (update_trace t).
Proof. unfold update_trace. auto 6 with readonly. Qed.

Lemma read_only_recession_graphs : read_only recession_graphs.
Proof.
  unfold recession_graphs.
  apply read_only_bind; [apply read_only_global_df_rec | intros d].
  auto using read_only_update_trace with readonly.
Qed.

Lemma read_only_year_graphs entered_year : read_only (year_graphs entered_year).
Proof. unfold year_graphs. auto with readonly. Qed.

(** C7. Whatever the arguments and whether or not an exception is raised,
    [recession_graphs], [year_graphs] and [display_graphs] leave the globals
    as they found them: [df] and [df_rec] hold the same records, in the same
    order, after the call. *)
Theorem aggregators_do_not_mutate (g : Globals) (report_value : option string)
    (entered_year : option Z) :
  (recession_graphs g).1 = g
  ∧ (year_graphs entered_year g).1 = g
  ∧ (display_graphs report_value entered_year g).1 = g
  ∧ df (display_graphs report_value entered_year g).1 = df g
  ∧ df_rec (display_graphs report_value entered_year g).1 = df_rec g.
Proof.
  assert ((display_graphs report_value entered_year g).1 = g) as Hd.
  { unfold display_graphs. destruct (decide (report_value = Some "Recession")).
    - apply read_only_recession_graphs.
    - apply read_only_year_graphs. }
  split_and!; [apply read_only_recession_graphs|apply read_only_year_graphs|done|..];
    by rewrite Hd.
Qed.

(** ** Aggregates over a filtered frame *)

Lemma filter_key_filter {K} `{EqDecision K} (key : SalesRecord → K)
    (P : SalesRecord → Prop) `{∀ r, Decision (P r)} (csv : list SalesRecord) k :
  filter (λ r, key r = k) (filter P csv) = filter (λ r, P r ∧ key r = k) csv.
Proof. rewrite list_filter_filter. apply list_filter_iff. tauto. Qed.

Section filtered.
Context {K : Type} `{EqDecision K} (cmp : K → K → comparison) `{!OrderLaws cmp}.
Context (key : SalesRecord → K) (col : SalesRecord → Q).
Context (P : SalesRecord → Prop) `{∀ r, Decision (P r)}.

Lemma agg_sum_filter csv :
  agg_sum col (groupby cmp key (filter P csv))
  = (λ k, (k, sum_of col (λ r, P r ∧ key r = k) csv))
      <$> group_keys cmp key (filter P csv).
Proof.
  rewrite (agg_sum_groupby cmp key). apply list_fmap_ext. intros _ k _.
  unfold sum_of. by rewrite filter_key_filter.
Qed.

Lemma agg_mean_filter csv :
  agg_mean col (groupby cmp key (filter P csv))
  = (λ k, (k, mean_of col (λ r, P r ∧ key r = k) csv))
      <$> group_keys cmp key (filter P csv).
Proof.
  rewrite (agg_mean_groupby cmp key). apply list_fmap_ext. intros _ k _.
  unfold mean_of. by rewrite filter_key_filter.
Qed.

Lemma group_keys_filter csv :
  ascending cmp (group_keys cmp key (filter P csv))
  ∧ (∀ k, k ∈ group_keys cmp key (filter P csv)
          ↔ ∃ r, r ∈ csv ∧ P r ∧ key r = k).
Proof.
  destruct (groupby_grouped cmp key (filter P csv)) as (_ & Hs & Hnd & Hin).
  split; [done|]. intros k. rewrite Hin. split.
  - intros (r & (HP & Hr)%list_elem_of_filter & Hk). eauto.
  - intros (r & Hr & HP & Hk). exists r. by rewrite list_elem_of_filter.
Qed.
End filtered.

Lemma group_keys_all {K} `{EqDecision K} (cmp : K → K → comparison)
    `{!OrderLaws cmp} (key : SalesRecord → K) (csv : list SalesRecord) :
  ascending cmp (group_keys cmp key csv)
  ∧ (∀ k, k ∈ group_keys cmp key csv ↔ ∃ r, r ∈ csv ∧ key r = k).
Proof. by destruct (groupby_grouped cmp key csv) as (_ & Hs & Hnd & Hin). Qed.

(** ** The yearly view *)

Lemma filter_year_Some (csv : list SalesRecord) (y : Z) :
  filter (λ r, Some (Year r) = Some y) csv = filter (λ r, Year r = y) csv.
Proof. apply list_filter_iff. intros r. split; [by intros [= ->]|by intros ->]. Qed.

(** ** The recession view *)

(** [recession_graphs] either stops with the [KeyError] of a recession row's
    unmapped label, or returns four figures of which the first three are the
    reference aggregates over the recession rows. *)
Lemma recession_graphs_cases (csv : list SalesRecord) :
  (∃ k, recession_graphs (startup csv) = (startup csv, inl (KeyError k))
        ∧ vehicle_type_names !! k = None
        ∧ ∃ r, r ∈ csv ∧ Recession r = 1 ∧ Vehicle_Type r = k)
  ∨ (∃ (years : list Z) (types : list string) (f4 : Figure),
        (∀ r, r ∈ csv → Recession r = 1 → is_Some (vehicle_type_names !! Vehicle_Type r))
        ∧ ascending Z.compare years
        ∧ (∀ y, y ∈ years ↔ ∃ r, r ∈ csv ∧ Recession r = 1 ∧ Year r = y)
        ∧ ascending cmp_str types
        ∧ (∀ v, v ∈ types ↔ ∃ r, r ∈ csv ∧ Recession r = 1 ∧ Vehicle_Type r = v)
        ∧ recession_graphs (startup csv)
          = (startup csv,
             inr [px_line
                    ((λ y, (CInt y,
                            mean_of Automobile_Sales
                              (λ r, Recession r = 1 ∧ Year r = y) csv)) <$> years)
                    "Year" "Automobile_Sales"
                    "Average Automobile Sales by Year during Recession Periods"
                    ["#C45A9A"];
                  px_bar
                    ((λ v, (Series_map vehicle_type_names v,
                            mean_of Automobile_Sales
                              (λ r, Recession r = 1 ∧ Vehicle_Type r = v) csv)) <$> types)
                    "Vehicle_Type" "Automobile_Sales"
                    "Average Automobile Sales by Vehicle Type during Recession Periods"
                    ["#C45A9A"];
                  px_pie
                    ((λ v, (Series_map vehicle_type_names v,
                            sum_of Advertising_Expenditure
                              (λ r, Recession r = 1 ∧ Vehicle_Type r = v) csv)) <$> types)
                    "Total Advertising Expenditure by Vehicle Type during Recession Periods";
                  f4])).
Proof.
  destruct (group_keys_filter Z.compare Year (λ r, Recession r = 1) csv) as [Hy1 Hy2].
  destruct (group_keys_filter cmp_str Vehicle_Type (λ r, Recession r = 1) csv) as [Hv1 Hv2].
  unfold recession_graphs.
  erewrite (M_bind_inr global_df_rec) by reflexivity.
  change (df_rec (startup csv)) with (filter (λ r, Recession r = 1) csv).
  set (d := filter (λ r, Recession r = 1) csv) in *.
  set (g := startup csv).
  set (fig := px_bar_color _ _ _ _).
  destruct (decide (Exists (λ r, vehicle_type_names !! Vehicle_Type r = None) d))
    as [Hbad|Hgood].
  - left. apply Exists_exists in Hbad as (r & Hr & Hnone).
    destruct (for_each_trace_fail fig g) as (k & Hk & Hk1 & Hk2).
    { exists (Vehicle_Type r). split; [|done]. apply bar2_names. eauto. }
    exists k. split_and!; [|done|].
    + by erewrite M_bind_inl by done.
    + apply bar2_names in Hk2 as (r' & Hr' & <-).
      apply list_elem_of_filter in Hr' as [? ?]. eauto.
  - right. rewrite <- Forall_Exists_neg, Forall_forall in Hgood.
    assert (∀ r, r ∈ d → is_Some (vehicle_type_names !! Vehicle_Type r)) as Hknown.
    { intros r Hr. apply Hgood in Hr. by apply not_eq_None_Some. }
    destruct (for_each_trace_ok fig g) as (f4 & Hf4).
    { intros c (r & Hr & <-)%bar2_names. by apply Hknown. }
    eexists _, _, f4. split_and!; [|done|done|done|done|].
    + intros r Hr Hrec. apply Hknown, list_elem_of_filter. done.
    + erewrite M_bind_inr by done. unfold mret, M_ret. do 2 f_equal.
      subst d.
      rewrite (agg_mean_filter Z.compare Year Automobile_Sales).
      rewrite (agg_mean_filter cmp_str Vehicle_Type Automobile_Sales).
      rewrite (agg_sum_filter cmp_str Vehicle_Type Advertising_Expenditure).
      rewrite <- !list_fmap_compose. reflexivity.
Qed.

(** The outcome of [recession_graphs] is a function of [df_rec] alone. *)
Lemma for_each_update_pure ts :
  ∃ res, ∀ g, for_each update_trace ts g = (g, res).
Proof.
  induction ts as [|t ts [res IH]]; simpl; [by eexists|].
  destruct (vehicle_type_names !! name t) as [v|] eqn:Hv.
  - destruct res as [e|ts'].
    + exists (inl e). intros g.
      erewrite M_bind_inr by (by apply update_trace_Some).
      by erewrite M_bind_inl by apply IH.
    + eexists. intros g.
      erewrite M_bind_inr by (by apply update_trace_Some).
      by erewrite M_bind_inr by apply IH.
  - eexists. intros g. by erewrite M_bind_inl by (by apply update_trace_None).
Qed.

Lemma recession_graphs_reads_df_rec (g g' : Globals) :
  df_rec g = df_rec g' → (recession_graphs g).2 = (recession_graphs g').2.
Proof.
  intros Heq. unfold recession_graphs.
  erewrite !(M_bind_inr global_df_rec) by reflexivity. rewrite <- Heq.
  set (fig := px_bar_color _ _ _ _). unfold for_each_trace.
  destruct (for_each_update_pure (data fig)) as [[e|ts] Hres].
  - by erewrite !(M_bind_inl (_ ≫= _)) by (by erewrite M_bind_inl by apply Hres).
  - by erewrite !(M_bind_inr (_ ≫= _)) by (by erewrite M_bind_inr by apply Hres).
Qed.

(** C4. (1) The outcome of [recession_graphs] is the same for any two datasets
    with the same recession rows, so rows with Recession <> 1 contribute
    nothing.  (2) Whenever it returns, its first three figures are: the mean
    of Automobile_Sales per Year, the mean of Automobile_Sales per
    Vehicle_Type and the sum of Advertising_Expenditure per Vehicle_Type, each
    taken over exactly the rows with Recession = 1 and that key, with one
    entry per key that occurs among the recession rows.  (3) On the two-row
    fixture the Vehicle_Type bar chart has the single bar "Sports Car" with
    mean 100. *)
Theorem recession_charts_use_recession_rows_only :
  (∀ csv csv' : list SalesRecord,
      filter (λ r, Recession r = 1) csv = filter (λ r, Recession r = 1) csv' →
      (recession_graphs (startup csv)).2 = (recession_graphs (startup csv')).2)
  ∧ (∀ (csv : list SalesRecord) (figs : list Figure),
      (recession_graphs (startup csv)).2 = inr figs →
      ∃ (years : list Z) (types : list string) (f4 : Figure),
        ascending Z.compare years
        ∧ (∀ y, y ∈ years ↔ ∃ r, r ∈ csv ∧ Recession r = 1 ∧ Year r = y)
        ∧ ascending cmp_str types
        ∧ (∀ v, v ∈ types ↔ ∃ r, r ∈ csv ∧ Recession r = 1 ∧ Vehicle_Type r = v)
        ∧ figs =
            [px_line
               ((λ y, (CInt y,
                       mean_of Automobile_Sales
                         (λ r, Recession r = 1 ∧ Year r = y) csv)) <$> years)
               "Year" "Automobile_Sales"
               "Average Automobile Sales by Year during Recession Periods"
               ["#C45A9A"];
             px_bar
               ((λ v, (Series_map vehicle_type_names v,
                       mean_of Automobile_Sales
                         (λ r, Recession r = 1 ∧ Vehicle_Type r = v) csv)) <$> types)
               "Vehicle_Type" "Automobile_Sales"
               "Average Automobile Sales by Vehicle Type during Recession Periods"
               ["#C45A9A"];
             px_pie
               ((λ v, (Series_map vehicle_type_names v,
                       sum_of Advertising_Expenditure
                         (λ r, Recession r = 1 ∧ Vehicle_Type r = v) csv)) <$> types)
               "Total Advertising Expenditure by Vehicle Type during Recession Periods";
             f4])
  ∧ (∃ f1 f3 f4 : Figure,
      (recession_graphs (startup fixture)).2
      = inr [f1;
             px_bar [(CStr "Sports Car", 100%Q)]
               "Vehicle_Type" "Automobile_Sales"
               "Average Automobile Sales by Vehicle Type during Recession Periods"
               ["#C45A9A"];
             f3; f4]).
Proof.
  split_and!.
  - intros csv csv' Heq. by apply recession_graphs_reads_df_rec.
  - intros csv figs Hfigs.
    destruct (recession_graphs_cases csv)
      as [(k & Hk & _)|(years & types & f4 & _ & Hy1 & Hy2 & Hv1 & Hv2 & Hres)].
    + by rewrite Hk in Hfigs.
    + rewrite Hres in Hfigs. simpl in Hfigs. injection Hfigs as <-.
      by exists years, types, f4.
  - eexists _, _, _. vm_compute. reflexivity.
Qed.

Lemma recession_charts_use_recession_rows_only_witness :
  ∃ figs : list Figure,
    (recession_graphs (startup fixture)).2 = inr figs
    ∧ ∃ (years : list Z) (types : list string) (f4 : Figure),
        ascending Z.compare years
        ∧ (∀ y, y ∈ years ↔ ∃ r, r ∈ fixture ∧ Recession r = 1 ∧ Year r = y)
        ∧ ascending cmp_str types
        ∧ (∀ v, v ∈ types ↔ ∃ r, r ∈ fixture ∧ Recession r = 1 ∧ Vehicle_Type r = v)
        ∧ figs =
            [px_line
               ((λ y, (CInt y,
                       mean_of Automobile_Sales
                         (λ r, Recession r = 1 ∧ Year r = y) fixture)) <$> years)
               "Year" "Automobile_Sales"
               "Average Automobile Sales by Year during Recession Periods"
               ["#C45A9A"];
             px_bar
               ((λ v, (Series_map vehicle_type_names v,
                       mean_of Automobile_Sales
                         (λ r, Recession r = 1 ∧ Vehicle_Type r = v) fixture)) <$> types)
               "Vehicle_Type" "Automobile_Sales"
               "Average Automobile Sales by Vehicle Type during Recession Periods"
               ["#C45A9A"];
             px_pie
               ((λ v, (Series_map vehicle_type_names v,
                       sum_of Advertising_Expenditure
                         (λ r, Recession r = 1 ∧ Vehicle_Type r = v) fixture)) <$> types)
               "Total Advertising Expenditure by Vehicle Type during Recession Periods";
             f4].
Proof.
  eexists. split; [vm_compute; reflexivity|].
  apply (proj1 (proj2 recession_charts_use_recession_rows_only) fixture).
  vm_compute. reflexivity.
Defined.

(** ** Outcomes of the two views *)

(** [year_graphs] returns for every argument and every dataset; its first
    figure is the line of yearly means over the whole dataset. *)
Lemma year_graphs_returns (csv : list SalesRecord) (entered_year : option Z) :
  ∃ f2 f3 f4 : Figure,
    year_graphs entered_year (startup csv)
    = (startup csv,
       inr [px_line (yearly_mean_points csv (group_keys Z.compare Year csv))
              "Year" "Automobile_Sales" "Yearly Average Automobile Sales"
              ["#C45A9A"];
            f2; f3; f4]).
Proof.
  eexists _, _, _. unfold year_graphs.
  erewrite (M_bind_inr global_df) by reflexivity.
  change (df (startup csv)) with csv. unfold mret, M_ret. do 4 f_equal.
  rewrite (agg_mean_groupby Z.compare Year). by rewrite <- list_fmap_compose.
Qed.

(** The third figure of the yearly view, in terms of the raw rows. *)
Lemma year_graphs_bar (csv : list SalesRecord) (y : Z) :
  ∃ (types : list string) (f1 f2 f4 : Figure),
    ascending cmp_str types
    ∧ (∀ v, v ∈ types ↔ ∃ r, r ∈ csv ∧ Year r = y ∧ Vehicle_Type r = v)
    ∧ (year_graphs (Some y) (startup csv)).2
      = inr [f1; f2;
             px_bar
               ((λ v, (Series_map vehicle_type_names v,
                       (sum_of Automobile_Sales
                          (λ r, Year r = y ∧ Vehicle_Type r = v) csv / 12)%Q))
                  <$> types)
               "Vehicle_Type" "Automobile_Sales"
               ("Average Monthly Automobile Sales by Vehicle Type in " +:+ pretty y)
               ["#C45A9A"];
             f4].
Proof.
  destruct (group_keys_filter cmp_str Vehicle_Type (λ r, Year r = y) csv) as [Hasc Hin].
  exists (group_keys cmp_str Vehicle_Type (filter (λ r, Year r = y) csv)).
  eexists _, _, _. split_and!; [done|done|].
  unfold year_graphs. erewrite (M_bind_inr global_df) by reflexivity.
  change (df (startup csv)) with csv. unfold mret, M_ret. cbn [snd py_str].
  rewrite filter_year_Some.
  rewrite (agg_sum_filter cmp_str Vehicle_Type Automobile_Sales).
  rewrite <- !list_fmap_compose. reflexivity.
Qed.

(** The Recession report on [truck_recession_csv], whose recession row of
    February carries the unmapped label "Truck": [display_graphs] raises
    [KeyError] and returns no list of four figures. *)
Lemma display_graphs_recession_not_four :
  (display_graphs (Some "Recession") (Some 2005) (startup truck_recession_csv)).2
  = inl (KeyError "Truck")
  ∧ ¬ ∃ figs : list Figure,
        (display_graphs (Some "Recession") (Some 2005)
           (startup truck_recession_csv)).2 = inr figs
        ∧ length figs = 4%nat.
Proof.
  split; [vm_compute; reflexivity|].
  intros (figs & Hfigs & _). vm_compute in Hfigs. discriminate.
Qed.

(** C1 (as the code has it). For every dataset: with report type "Yearly"
    and any entered year, present in the dataset or not, [display_graphs]
    returns a list of exactly four figures.  With report type "Recession" it
    returns a list of exactly four figures if and only if every row with
    Recession = 1 carries a Vehicle_Type that is a key of the display-name
    table; if some recession row does not, it raises [KeyError] and returns
    no figure.  Labels of rows that are not recession rows play no part. *)
Theorem display_graphs_four_figures (csv : list SalesRecord)
    (entered_year : option Z) :
  (∃ figs : list Figure,
     display_graphs (Some "Yearly") entered_year (startup csv)
     = (startup csv, inr figs)
     ∧ length figs = 4%nat)
  ∧ ((∀ r, r ∈ csv → Recession r = 1 →
           is_Some (vehicle_type_names !! Vehicle_Type r))
     ↔ ∃ figs : list Figure,
         display_graphs (Some "Recession") entered_year (startup csv)
         = (startup csv, inr figs)
         ∧ length figs = 4%nat)
  ∧ ((∃ r, r ∈ csv ∧ Recession r = 1
           ∧ vehicle_type_names !! Vehicle_Type r = None)
     → ∃ k, display_graphs (Some "Recession") entered_year (startup csv)
            = (startup csv, inl (KeyError k)))
  ∧ (∀ figs : list Figure,
       (display_graphs (Some "Recession") entered_year (startup csv)).2 = inr figs →
       length figs = 4%nat).
Proof.
  unfold display_graphs. rewrite decide_False by done. rewrite decide_True by done.
  split_and!.
  - destruct (year_graphs_returns csv entered_year) as (f2 & f3 & f4 & ->).
    by eexists.
  - destruct (recession_graphs_cases csv)
      as [(k & Hk & Hnone & r & Hr & Hrec & <-)
         |(years & types & f4 & Hknown & _ & _ & _ & _ & Hres)].
    + split.
      * intros Hall. destruct (Hall r Hr Hrec) as [v Hv]. congruence.
      * intros (figs & Hfigs & _). rewrite Hk in Hfigs. done.
    + split; [|done]. intros _. rewrite Hres. by eexists.
  - intros (r & Hr & Hrec & Hnone).
    destruct (recession_graphs_cases csv)
      as [(k & Hk & _)|(years & types & f4 & Hknown & _)].
    + by exists k.
    + destruct (Hknown r Hr Hrec) as [v Hv]. congruence.
  - intros figs Hfigs.
    destruct (recession_graphs_cases csv)
      as [(k & Hk & _)|(years & types & f4 & _ & _ & _ & _ & _ & Hres)].
    + by rewrite Hk in Hfigs.
    + rewrite Hres in Hfigs. by injection Hfigs as <-.
Qed.

(** On [truck_csv] the unmapped label sits in a row that is not a recession
    row: both report types return four figures. *)
Lemma display_graphs_four_figures_witness :
  (∃ figs : list Figure,
     display_graphs (Some "Yearly") (Some 2005) (startup truck_csv)
     = (startup truck_csv, inr figs)
     ∧ length figs = 4%nat)
  ∧ (∃ figs : list Figure,
       display_graphs (Some "Recession") (Some 2005) (startup truck_csv)
       = (startup truck_csv, inr figs)
       ∧ length figs = 4%nat)
  ∧ (∃ k, display_graphs (Some "Recession") (Some 2005)
            (startup truck_recession_csv)
          = (startup truck_recession_csv, inl (KeyError k))).
Proof.
  split_and!.
  - apply (proj1 (display_graphs_four_figures truck_csv (Some 2005))).
  - apply (proj1 (proj2 (display_graphs_four_figures truck_csv (Some 2005)))).
    intros r Hr Hrec. unfold truck_csv in Hr.
    apply list_elem_of_singleton in Hr as ->. vm_compute in Hrec. discriminate.
  - apply (proj1 (proj2 (proj2
             (display_graphs_four_figures truck_recession_csv (Some 2005))))).
    exists (row 2005 "Feb" "Truck" 100 10 5 1).
    split_and!; [right; left|reflexivity|by vm_compute].
Defined.

(** C2. For every dataset and year, the third figure of [year_graphs] is the
    bar chart with one bar per Vehicle_Type that occurs in the year's rows
    (ascending, no duplicates); the value of the bar of type [v] is the sum of
    Automobile_Sales over the rows of that year and that type, divided by 12,
    and its label is the display name of [v]. *)
Theorem year_bar_is_yearly_sum_over_12 (csv : list SalesRecord) (y : Z) :
  ∃ (types : list string) (f1 f2 f4 : Figure),
    ascending cmp_str types
    ∧ (∀ v, v ∈ types ↔ ∃ r, r ∈ csv ∧ Year r = y ∧ Vehicle_Type r = v)
    ∧ (year_graphs (Some y) (startup csv)).2
      = inr [f1; f2;
             px_bar
               ((λ v, (Series_map vehicle_type_names v,
                       (sum_of Automobile_Sales
                          (λ r, Year r = y ∧ Vehicle_Type r = v) csv / 12)%Q))
                  <$> types)
               "Vehicle_Type" "Automobile_Sales"
               ("Average Monthly Automobile Sales by Vehicle Type in " +:+ pretty y)
               ["#C45A9A"];
             f4].
Proof. exact (year_graphs_bar csv y). Qed.

(** C6. For any two selected years (or [None]), the first figure of
    [year_graphs] is the same: the line with one point per year occurring in
    the dataset, ascending, whose value is the mean of Automobile_Sales over
    all rows of that year. *)
Theorem year_first_chart_independent_of_year (csv : list SalesRecord)
    (y1 y2 : option Z) :
  ∃ (years : list Z) (f1 : Figure) (rest1 rest2 : list Figure),
    ascending Z.compare years
    ∧ (∀ y, y ∈ years ↔ ∃ r, r ∈ csv ∧ Year r = y)
    ∧ f1 = px_line (yearly_mean_points csv years)
             "Year" "Automobile_Sales" "Yearly Average Automobile Sales" ["#C45A9A"]
    ∧ (year_graphs y1 (startup csv)).2 = inr (f1 :: rest1)
    ∧ (year_graphs y2 (startup csv)).2 = inr (f1 :: rest2).
Proof.
  destruct (group_keys_all Z.compare Year csv) as [Hasc Hin].
  destruct (year_graphs_returns csv y1) as (a2 & a3 & a4 & Ha).
  destruct (year_graphs_returns csv y2) as (b2 & b3 & b4 & Hb).
  exists (group_keys Z.compare Year csv). eexists _, [a2; a3; a4], [b2; b3; b4].
  split_and!; [done|done|reflexivity|by rewrite Ha|by rewrite Hb].
Qed.

(** C10. For an entered value that is the year of no row (an absent year or
    [None]), [year_graphs] raises nothing and returns four figures: the
    same first figure as for every other entered value, and the month line,
    the type bar chart and the advertising pie over no rows at all. *)
Theorem year_graphs_absent_year (csv : list SalesRecord) (entered_year : option Z)
    (Habsent : ∀ r, r ∈ csv → Some (Year r) ≠ entered_year) :
  ∃ f1 : Figure,
    year_graphs entered_year (startup csv)
    = (startup csv,
       inr [f1;
            px_line [] "Month" "Automobile_Sales"
              ("Total Automobile Sales per Month in " +:+ py_str entered_year)
              ["#C45A9A"];
            px_bar [] "Vehicle_Type" "Automobile_Sales"
              ("Average Monthly Automobile Sales by Vehicle Type in "
                 +:+ py_str entered_year)
              ["#C45A9A"];
            px_pie []
              ("Total Advertising Expenditure by Vehicle Type in "
                 +:+ py_str entered_year)])
    ∧ f1 = px_line (yearly_mean_points csv (group_keys Z.compare Year csv))
             "Year" "Automobile_Sales" "Yearly Average Automobile Sales" ["#C45A9A"]
    ∧ ∀ other : option Z,
        ∃ rest, (year_graphs other (startup csv)).2 = inr (f1 :: rest).
Proof.
  eexists. split_and!; [|reflexivity|].
  - unfold year_graphs. erewrite (M_bind_inr global_df) by reflexivity.
    change (df (startup csv)) with csv. unfold mret, M_ret.
    rewrite (filter_none (λ r, Some (Year r) = entered_year) csv) by done.
    do 4 f_equal.
    rewrite (agg_mean_groupby Z.compare Year). by rewrite <- list_fmap_compose.
  - intros other. destruct (year_graphs_returns csv other) as (f2 & f3 & f4 & ->).
    by eexists.
Qed.

Lemma year_graphs_absent_year_witness :
  ∃ f1 : Figure,
    year_graphs (Some 1999) (startup fixture)
    = (startup fixture,
       inr [f1;
            px_line [] "Month" "Automobile_Sales"
              "Total Automobile Sales per Month in 1999" ["#C45A9A"];
            px_bar [] "Vehicle_Type" "Automobile_Sales"
              "Average Monthly Automobile Sales by Vehicle Type in 1999" ["#C45A9A"];
            px_pie [] "Total Advertising Expenditure by Vehicle Type in 1999"])
    ∧ f1 = px_line (yearly_mean_points fixture (group_keys Z.compare Year fixture))
             "Year" "Automobile_Sales" "Yearly Average Automobile Sales" ["#C45A9A"]
    ∧ ∀ other : option Z,
        ∃ rest, (year_graphs other (startup fixture)).2 = inr (f1 :: rest).
Proof.
  apply (year_graphs_absent_year fixture (Some 1999)).
  intros r Hr. unfold fixture in Hr.
  repeat (apply elem_of_cons in Hr as [->|Hr]); [done|done|].
  by apply elem_of_nil in Hr.
Defined.

(** ** The month line of the yearly view *)

(** The second figure has one point per row of the selected year, in frame
    order: the row's Month against the row's Automobile_Sales. *)
Lemma year_month_line_one_point_per_row (csv : list SalesRecord) (y : Z) :
  ∃ f1 f3 f4 : Figure,
    (year_graphs (Some y) (startup csv)).2
    = inr [f1;
           px_line
             ((λ r, (CStr (Month r), Automobile_Sales r))
                <$> filter (λ r, Year r = y) csv)
             "Month" "Automobile_Sales"
             ("Total Automobile Sales per Month in " +:+ pretty y) ["#C45A9A"];
           f3; f4].
Proof.
  eexists _, _, _. unfold year_graphs.
  erewrite (M_bind_inr global_df) by reflexivity.
  change (df (startup csv)) with csv. unfold mret, M_ret. cbn [snd py_str].
  by rewrite filter_year_Some.
Qed.

Lemma filter_unique {A B} `{EqDecision B} (f : A → B) (l : list A) (x : A) :
  NoDup (f <$> l) → x ∈ l → filter (λ z, f z = f x) l = [x].
Proof.
  induction l as [|a l IH]; [by intros _ ?%elem_of_nil|].
  rewrite fmap_cons, NoDup_cons. intros [Ha Hl] [->|Hx]%elem_of_cons.
  - rewrite filter_cons_True by done. f_equal. apply filter_none.
    intros z Hz Heq. apply Ha. rewrite <- Heq. by apply list_elem_of_fmap_2.
  - rewrite filter_cons_False; [by apply IH|].
    intros Heq. apply Ha. rewrite Heq. by apply list_elem_of_fmap_2.
Qed.

(** When no two rows of the year share a month, each plotted value is that
    month's total. *)
Lemma year_month_line_total_when_months_unique (csv : list SalesRecord) (y : Z) r :
  NoDup (Month <$> filter (λ r, Year r = y) csv) →
  r ∈ filter (λ r, Year r = y) csv →
  (Automobile_Sales r == month_total csv y (Month r))%Q.
Proof.
  intros Hnd Hr. unfold month_total, sum_of.
  rewrite <- (filter_key_filter Month (λ r, Year r = y)).
  rewrite (filter_unique Month _ r) by done.
  unfold Qsum. simpl. by rewrite Qplus_0_l.
Qed.

(** C3. On [two_jan_csv], whose two rows of 2005 are both of month "Jan"
    (sales 100 and 200), the second figure of [year_graphs] plots the two
    rows as two points and not the month's total, 300. *)
Theorem year_month_line_plots_rows_not_totals :
  (∃ f1 f3 f4 : Figure,
     (year_graphs (Some 2005) (startup two_jan_csv)).2
     = inr [f1;
            px_line [(CStr "Jan", 100%Q); (CStr "Jan", 200%Q)]
              "Month" "Automobile_Sales"
              "Total Automobile Sales per Month in 2005" ["#C45A9A"];
            f3; f4])
  ∧ month_total two_jan_csv 2005 "Jan" = 300%Q.
Proof. split; [eexists _, _, _|]; vm_compute; reflexivity. Qed.

(** ** Labels outside the display-name table *)

(** [truck_csv] carries the unmapped label "Truck" in a row of 2005, yet
    neither [recession_graphs] nor [year_graphs] for 2005 raises. *)
Lemma unmapped_label_without_error :
  unmapped_label truck_csv
  ∧ (∃ r, r ∈ truck_csv ∧ Year r = 2005)
  ∧ ¬ raises (recession_graphs (startup truck_csv))
  ∧ ¬ raises (year_graphs (Some 2005) (startup truck_csv)).
Proof.
  split_and!.
  - eexists. split; [left|]. by vm_compute.
  - eexists. split; [left|done].
  - intros [e He]. vm_compute in He. discriminate.
  - intros [e He]. vm_compute in He. discriminate.
Qed.

(** C8 (as the code has it). [recession_graphs] raises exactly when a
    recession row (Recession = 1) carries a label outside the display-name
    table, and the exception is the [KeyError] of such a label.
    [year_graphs] never raises: in its bar chart the bar of an unmapped label
    is kept, with the missing value NaN as its label. *)
Theorem unmapped_label_outcomes (csv : list SalesRecord) :
  ((∃ r, r ∈ csv ∧ Recession r = 1 ∧ vehicle_type_names !! Vehicle_Type r = None)
    ↔ raises (recession_graphs (startup csv)))
  ∧ (∀ e, (recession_graphs (startup csv)).2 = inl e →
          ∃ r, r ∈ csv ∧ Recession r = 1
               ∧ vehicle_type_names !! Vehicle_Type r = None
               ∧ e = KeyError (Vehicle_Type r))
  ∧ (∀ entered_year, ¬ raises (year_graphs entered_year (startup csv)))
  ∧ (∀ (y : Z) (v : string),
        vehicle_type_names !! v = None →
        (∃ r, r ∈ csv ∧ Year r = y ∧ Vehicle_Type r = v) →
        ∃ (f1 f2 f4 : Figure) (bars : list (cell * Q)),
          (year_graphs (Some y) (startup csv)).2
          = inr [f1; f2;
                 px_bar bars "Vehicle_Type" "Automobile_Sales"
                   ("Average Monthly Automobile Sales by Vehicle Type in " +:+ pretty y)
                   ["#C45A9A"];
                 f4]
          ∧ (CNaN, (sum_of Automobile_Sales
                      (λ r, Year r = y ∧ Vehicle_Type r = v) csv / 12)%Q) ∈ bars).
Proof.
  assert (∀ e, (recession_graphs (startup csv)).2 = inl e →
               ∃ r, r ∈ csv ∧ Recession r = 1
                    ∧ vehicle_type_names !! Vehicle_Type r = None
                    ∧ e = KeyError (Vehicle_Type r)) as Hraise.
  { intros e He.
    destruct (recession_graphs_cases csv)
      as [(k & Hk & Hnone & r & Hr & Hrec & <-)|(? & ? & ? & _ & _ & _ & _ & _ & Hres)].
    - rewrite Hk in He. injection He as <-. by exists r.
    - by rewrite Hres in He. }
  split_and!; [split| done | |].
  - intros (r & Hr & Hrec & Hnone).
    destruct (recession_graphs_cases csv)
      as [(k & Hk & _)|(? & ? & ? & Hknown & _)].
    + exists (KeyError k). by rewrite Hk.
    + destruct (Hknown r Hr Hrec) as [v Hv]. congruence.
  - intros [e He]. destruct (Hraise e He) as (r & ? & ? & ? & _). eauto.
  - intros ey [e He].
    destruct (year_graphs_returns csv ey) as (f2 & f3 & f4 & Hres).
    by rewrite Hres in He.
  - intros y v Hnone Hex.
    destruct (year_graphs_bar csv y) as (types & f1 & f2 & f4 & _ & Hin & Hres).
    eexists f1, f2, f4, _. split; [exact Hres|].
    apply list_elem_of_fmap. exists v. split; [|by apply Hin].
    unfold Series_map. by rewrite Hnone.
Qed.

Lemma unmapped_label_outcomes_witness :
  raises (recession_graphs (startup truck_recession_csv))
  ∧ ∃ r, r ∈ truck_recession_csv ∧ Recession r = 1
         ∧ vehicle_type_names !! Vehicle_Type r = None
         ∧ KeyError "Truck" = KeyError (Vehicle_Type r).
Proof.
  split.
  - apply (proj1 (unmapped_label_outcomes truck_recession_csv)).
    exists (row 2005 "Feb" "Truck" 100 10 5 1).
    split_and!; [right; left|reflexivity|by vm_compute].
  - apply (proj1 (proj2 (unmapped_label_outcomes truck_recession_csv))).
    vm_compute. reflexivity.
Defined.

(** * Further properties of the code *)

(** ** The advertising pie of the yearly view *)

(** The third and fourth figure of the yearly view, in terms of the raw
    rows. *)
Lemma year_graphs_bar_and_pie (csv : list SalesRecord) (y : Z) :
  ∃ (types : list string) (f1 f2 : Figure),
    ascending cmp_str types
    ∧ (∀ v, v ∈ types ↔ ∃ r, r ∈ csv ∧ Year r = y ∧ Vehicle_Type r = v)
    ∧ (year_graphs (Some y) (startup csv)).2
      = inr [f1; f2;
             px_bar
               ((λ v, (Series_map vehicle_type_names v,
                       (sum_of Automobile_Sales
                          (λ r, Year r = y ∧ Vehicle_Type r = v) csv / 12)%Q))
                  <$> types)
               "Vehicle_Type" "Automobile_Sales"
               ("Average Monthly Automobile Sales by Vehicle Type in " +:+ pretty y)
               ["#C45A9A"];
             px_pie
               ((λ v, (Series_map vehicle_type_names v,
                       sum_of Advertising_Expenditure
                         (λ r, Year r = y ∧ Vehicle_Type r = v) csv))
                  <$> types)
               ("Total Advertising Expenditure by Vehicle Type in " +:+ pretty y)].
Proof.
  destruct (group_keys_filter cmp_str Vehicle_Type (λ r, Year r = y) csv) as [Hasc Hin].
  exists (group_keys cmp_str Vehicle_Type (filter (λ r, Year r = y) csv)).
  eexists _, _. split_and!; [done|done|].
  unfold year_graphs. erewrite (M_bind_inr global_df) by reflexivity.
  change (df (startup csv)) with csv. unfold mret, M_ret. cbn [snd py_str].
  rewrite filter_year_Some.
  rewrite (agg_sum_filter cmp_str Vehicle_Type Automobile_Sales).
  rewrite (agg_sum_filter cmp_str Vehicle_Type Advertising_Expenditure).
  rewrite <- !list_fmap_compose. reflexivity.
Qed.

(** X1. For every dataset and year, the fourth figure of [year_graphs] is
    the pie with one slice per Vehicle_Type that occurs in the year's rows;
    the slice of type [v] is the sum of Advertising_Expenditure over the rows
    of that year and type, under the display name of [v].  The slices list
    the same types, in the same order, as the bars of the third figure. *)
Theorem year_pie_is_yearly_advertising_sum (csv : list SalesRecord) (y : Z) :
  ∃ (types : list string) (f1 f2 : Figure),
    ascending cmp_str types
    ∧ (∀ v, v ∈ types ↔ ∃ r, r ∈ csv ∧ Year r = y ∧ Vehicle_Type r = v)
    ∧ (year_graphs (Some y) (startup csv)).2
      = inr [f1; f2;
             px_bar
               ((λ v, (Series_map vehicle_type_names v,
                       (sum_of Automobile_Sales
                          (λ r, Year r = y ∧ Vehicle_Type r = v) csv / 12)%Q))
                  <$> types)
               "Vehicle_Type" "Automobile_Sales"
               ("Average Monthly Automobile Sales by Vehicle Type in " +:+ pretty y)
               ["#C45A9A"];
             px_pie
               ((λ v, (Series_map vehicle_type_names v,
                       sum_of Advertising_Expenditure
                         (λ r, Year r = y ∧ Vehicle_Type r = v) csv))
                  <$> types)
               ("Total Advertising Expenditure by Vehicle Type in " +:+ pretty y)].
Proof. exact (year_graphs_bar_and_pie csv y). Qed.

(** ** The month line of the yearly view, when months are unique *)

(** X2. If no two rows of the selected year share a month, the second figure
    of [year_graphs] shows every month of the year with a value numerically
    equal to that month's total of Automobile_Sales. *)
Theorem year_month_line_is_total_when_months_unique (csv : list SalesRecord) (y : Z)
    (Hunique : NoDup (Month <$> filter (λ r, Year r = y) csv)) :
  ∃ (f1 f3 f4 : Figure) (pts : list (cell * Q)),
    (year_graphs (Some y) (startup csv)).2
    = inr [f1;
           px_line pts "Month" "Automobile_Sales"
             ("Total Automobile Sales per Month in " +:+ pretty y) ["#C45A9A"];
           f3; f4]
    ∧ (∀ c q, (c, q) ∈ pts →
              ∃ m, c = CStr m ∧ (q == month_total csv y m)%Q)
    ∧ (∀ r, r ∈ csv → Year r = y → ∃ q, (CStr (Month r), q) ∈ pts).
Proof.
  destruct (year_month_line_one_point_per_row csv y) as (f1 & f3 & f4 & Hres).
  eexists f1, f3, f4, _. split_and!; [exact Hres| |].
  - intros c q (r & [= -> ->] & Hr)%list_elem_of_fmap. exists (Month r).
    split; [done|]. by apply year_month_line_total_when_months_unique.
  - intros r Hr Hy. exists (Automobile_Sales r).
    apply list_elem_of_fmap. exists r. split; [done|].
    by apply list_elem_of_filter.
Qed.

Lemma year_month_line_is_total_when_months_unique_witness :
  ∃ (f1 f3 f4 : Figure) (pts : list (cell * Q)),
    (year_graphs (Some 2005) (startup fixture)).2
    = inr [f1;
           px_line pts "Month" "Automobile_Sales"
             "Total Automobile Sales per Month in 2005" ["#C45A9A"];
           f3; f4]
    ∧ (∀ c q, (c, q) ∈ pts →
              ∃ m, c = CStr m ∧ (q == month_total fixture 2005 m)%Q)
    ∧ (∀ r, r ∈ fixture → Year r = 2005 → ∃ q, (CStr (Month r), q) ∈ pts).
Proof.
  apply (year_month_line_is_total_when_months_unique fixture 2005).
  apply (bool_decide_unpack _). vm_compute. exact I.
Defined.

(** ** The two callbacks branch alike *)

(** X3. The year control is disabled exactly when [display_graphs] ignores
    the entered year: if [disable_year] answers [true] the figures are those
    of [recession_graphs] whatever the year, and if it answers [false] they
    are those of [year_graphs] on the entered year. *)
Theorem year_selector_agrees_with_dispatch (report_value : option string) :
  (disable_year report_value = true →
     ∀ entered_year, display_graphs report_value entered_year = recession_graphs)
  ∧ (disable_year report_value = false →
       ∀ entered_year,
         display_graphs report_value entered_year = year_graphs entered_year).
Proof.
  unfold disable_year, display_graphs.
  destruct (decide (report_value = Some "Recession")); split; done.
Qed.

Lemma year_selector_agrees_with_dispatch_witness :
  (∀ entered_year, display_graphs (Some "Recession") entered_year = recession_graphs)
  ∧ (∀ entered_year, display_graphs None entered_year = year_graphs entered_year).
Proof.
  split.
  - apply (proj1 (year_selector_agrees_with_dispatch (Some "Recession"))).
    reflexivity.
  - apply (proj2 (year_selector_agrees_with_dispatch None)). reflexivity.
Defined.

(** ** The recession view without recession rows *)

(** X4. On a dataset without any row of Recession = 1, [recession_graphs]
    raises nothing, whatever the labels of the rows: it returns the line, the
    bar chart and the pie without points and the coloured bar chart without
    traces. *)
Theorem recession_graphs_without_recession_rows (csv : list SalesRecord)
    (Hnone : ∀ r, r ∈ csv → Recession r ≠ 1) :
  recession_graphs (startup csv)
  = (startup csv,
     inr [px_line [] "Year" "Automobile_Sales"
            "Average Automobile Sales by Year during Recession Periods" ["#C45A9A"];
          px_bar [] "Vehicle_Type" "Automobile_Sales"
            "Average Automobile Sales by Vehicle Type during Recession Periods"
            ["#C45A9A"];
          px_pie []
            "Total Advertising Expenditure by Vehicle Type during Recession Periods";
          {| fig_kind := Bar;
             fig_title := "Automobile Sales by Vehicle Type Per Unemployment Rate during Recession Periods";
             xaxis_title := Some "Unemployment Rate";
             yaxis_title := Some "Automobile Sales";
             color_discrete_sequence := [];
             data := [] |}]).
Proof.
  unfold recession_graphs. erewrite (M_bind_inr global_df_rec) by reflexivity.
  change (df_rec (startup csv)) with (filter (λ r, Recession r = 1) csv).
  rewrite (filter_none (λ r, Recession r = 1) csv) by done.
  reflexivity.
Qed.

Lemma recession_graphs_without_recession_rows_witness :
  recession_graphs (startup truck_csv)
  = (startup truck_csv,
     inr [px_line [] "Year" "Automobile_Sales"
            "Average Automobile Sales by Year during Recession Periods" ["#C45A9A"];
          px_bar [] "Vehicle_Type" "Automobile_Sales"
            "Average Automobile Sales by Vehicle Type during Recession Periods"
            ["#C45A9A"];
          px_pie []
            "Total Advertising Expenditure by Vehicle Type during Recession Periods";
          {| fig_kind := Bar;
             fig_title := "Automobile Sales by Vehicle Type Per Unemployment Rate during Recession Periods";
             xaxis_title := Some "Unemployment Rate";
             yaxis_title := Some "Automobile Sales";
             color_discrete_sequence := [];
             data := [] |}]).
Proof.
  apply (recession_graphs_without_recession_rows truck_csv).
  intros r Hr. unfold truck_csv in Hr.
  apply list_elem_of_singleton in Hr as ->. done.
Defined.

(** ** The options of the year selector *)

Lemma Series_unique_snoc {A} `{EqDecision A} (l : list A) x :
  Series_unique (l ++ [x])
  = if decide (x ∈ Series_unique l) then Series_unique l else Series_unique l ++ [x].
Proof. unfold Series_unique. by rewrite foldl_app. Qed.

Lemma Series_unique_elem_of {A} `{EqDecision A} (l : list A) x :
  x ∈ Series_unique l ↔ x ∈ l.
Proof.
  induction l as [|a l IH] using rev_ind; [done|].
  rewrite Series_unique_snoc, elem_of_app, list_elem_of_singleton.
  destruct (decide (a ∈ Series_unique l)) as [Ha|Ha].
  - rewrite IH. split; [auto|]. intros [?| ->]; [done|]. by apply IH.
  - rewrite elem_of_app, list_elem_of_singleton, IH. done.
Qed.

Lemma Series_unique_NoDup {A} `{EqDecision A} (l : list A) : NoDup (Series_unique l).
Proof.
  induction l as [|a l IH] using rev_ind; [constructor|].
  rewrite Series_unique_snoc. destruct (decide (a ∈ Series_unique l)); [done|].
  apply NoDup_app. split_and!; [done| |apply NoDup_singleton].
  intros x Hx ->%list_elem_of_singleton. done.
Qed.

Lemma sorted_strict (l : list Z) :
  NoDup l → StronglySorted Z.le l → StronglySorted (λ a b, Z.compare a b = Lt) l.
Proof.
  induction 2 as [|x l Hs IH Hx]; [constructor|].
  apply NoDup_cons in H as [Hnot Hnd]. constructor; [by apply IH|].
  rewrite Forall_forall in Hx |- *. intros z Hz. apply Z.compare_lt_iff.
  specialize (Hx z Hz). assert (x ≠ z) by (by intros ->). lia.
Qed.

Lemma strictly_sorted_unique {K} (cmp : K → K → comparison) `{!OrderLaws cmp}
    (l1 l2 : list K) :
  ascending cmp l1 → ascending cmp l2 → (∀ x, x ∈ l1 ↔ x ∈ l2) → l1 = l2.
Proof.
  intros [Hs1 Hn1] [Hs2 Hn2] Hin.
  apply (StronglySorted_unique_strong (λ a b, cmp a b = Lt)); [|done..|].
  - intros x1 x2 _ _ H12 H21. rewrite cmp_antisym, H12 in H21. done.
  - by apply NoDup_Permutation.
Qed.

Lemma year_options_ascending (csv : list SalesRecord) :
  ascending Z.compare (year_options (startup csv))
  ∧ (∀ y, y ∈ year_options (startup csv) ↔ ∃ r, r ∈ csv ∧ Year r = y).
Proof.
  unfold year_options, sorted. change (df (startup csv)) with csv.
  assert (NoDup (merge_sort Z.le (Series_unique (Year <$> csv)))) as Hnd.
  { rewrite merge_sort_Permutation. apply Series_unique_NoDup. }
  split_and!; [split; [|done]|].
  - apply sorted_strict; [done|]. apply StronglySorted_merge_sort; apply _.
  - intros y. rewrite merge_sort_Permutation, Series_unique_elem_of, list_elem_of_fmap.
    split; [intros (r & -> & Hr)|intros (r & Hr & <-)]; eauto.
Qed.

Lemma year_options_group_keys (csv : list SalesRecord) :
  year_options (startup csv) = group_keys Z.compare Year csv.
Proof.
  destruct (year_options_ascending csv) as [Hasc Hin].
  destruct (group_keys_all Z.compare Year csv) as [Hasc' Hin'].
  apply (strictly_sorted_unique Z.compare); [done..|].
  intros y. by rewrite Hin, Hin'.
Qed.

(** X5. The year dropdown offers exactly the years that occur in the
    dataset, ascending and without duplicates.  They are the years on the
    x-axis of the first yearly figure, and the month line of [year_graphs] has
    a point exactly for the years offered. *)
Theorem year_options_are_the_years_plotted (csv : list SalesRecord) :
  ascending Z.compare (year_options (startup csv))
  ∧ (∀ y, y ∈ year_options (startup csv) ↔ ∃ r, r ∈ csv ∧ Year r = y)
  ∧ (∀ entered_year, ∃ rest,
       (year_graphs entered_year (startup csv)).2
       = inr (px_line (yearly_mean_points csv (year_options (startup csv)))
                "Year" "Automobile_Sales" "Yearly Average Automobile Sales"
                ["#C45A9A"] :: rest))
  ∧ (∀ y, ∃ (f1 f3 f4 : Figure) (pts : list (cell * Q)),
       (year_graphs (Some y) (startup csv)).2
       = inr [f1;
              px_line pts "Month" "Automobile_Sales"
                ("Total Automobile Sales per Month in " +:+ pretty y) ["#C45A9A"];
              f3; f4]
       ∧ (pts ≠ [] ↔ y ∈ year_options (startup csv))).
Proof.
  destruct (year_options_ascending csv) as [Hasc Hin].
  split_and!; [done|done| |].
  - intros ey. destruct (year_graphs_returns csv ey) as (f2 & f3 & f4 & ->).
    rewrite year_options_group_keys. by eexists.
  - intros y.
    destruct (year_month_line_one_point_per_row csv y) as (f1 & f3 & f4 & Hres).
    eexists f1, f3, f4, _. split; [exact Hres|]. rewrite Hin.
    destruct (filter (λ r, Year r = y) csv) as [|r rs] eqn:Hf; simpl.
    + split; [done|]. intros (r & Hr & Hy).
      assert (r ∈ filter (λ r, Year r = y) csv) as Hr'
        by (by apply list_elem_of_filter).
      rewrite Hf in Hr'. by apply elem_of_nil in Hr'.
    + split; [|done]. intros _. exists r.
      assert (r ∈ filter (λ r, Year r = y) csv) as Hr' by (rewrite Hf; left).
      apply list_elem_of_filter in Hr' as [? ?]. done.
Qed.

Example year_options_sample : year_options (startup sample_csv) = [2005; 2006].
Proof. reflexivity. Qed.

(** ** Grouping under a numeric key order *)

Section groupby_weak.
Context {K R : Type} (cmp : K → K → comparison) `{!WeakOrderLaws cmp} (key : R → K).

Lemma wcmp_congr_r a b c : cmp a b = Eq → cmp c a = cmp c b.
Proof. intros H. by rewrite (wcmp_antisym a c), (wcmp_antisym b c), (wcmp_congr a b c). Qed.

Lemma wcmp_sym a b : cmp a b = Eq → cmp b a = Eq.
Proof. intros H. by rewrite wcmp_antisym, H. Qed.

Lemma wgrouped_cons k keys rows :
  wgrouped cmp key (k :: keys) rows
  = (k, filter (λ r, cmp (key r) k = Eq) rows) :: wgrouped cmp key keys rows.
Proof. done. Qed.

Lemma wgrouped_keys keys rows : (wgrouped cmp key keys rows).*1 = keys.
Proof. unfold wgrouped. rewrite <- list_fmap_compose. apply list_fmap_id. Qed.

Lemma wfilter_snoc_eq k rows r :
  cmp (key r) k = Eq →
  filter (λ r', cmp (key r') k = Eq) (rows ++ [r])
  = filter (λ r', cmp (key r') k = Eq) rows ++ [r].
Proof. intros Hk. by rewrite filter_app, filter_cons_True, filter_nil. Qed.

Lemma wfilter_snoc_ne k rows r :
  cmp (key r) k ≠ Eq →
  filter (λ r', cmp (key r') k = Eq) (rows ++ [r])
  = filter (λ r', cmp (key r') k = Eq) rows.
Proof.
  intros Hk. by rewrite filter_app, filter_cons_False, filter_nil, app_nil_r.
Qed.

Lemma wgrouped_snoc_other keys rows r :
  (∀ k, k ∈ keys → cmp (key r) k ≠ Eq) →
  wgrouped cmp key keys (rows ++ [r]) = wgrouped cmp key keys rows.
Proof.
  intros Hr. unfold wgrouped. apply list_fmap_ext. intros i k Hk. f_equal.
  apply wfilter_snoc_ne, Hr. by eapply list_elem_of_lookup_2.
Qed.

Lemma wfilter_fresh (keys : list K) rows r :
  ((∃ r', r' ∈ rows ∧ cmp (key r') (key r) = Eq) → ∃ k, k ∈ keys ∧ cmp (key r) k = Eq) →
  (∀ k, k ∈ keys → cmp (key r) k ≠ Eq) →
  filter (λ r', cmp (key r') (key r) = Eq) (rows ++ [r]) = [r].
Proof.
  intros Hin Hnot. rewrite wfilter_snoc_eq by apply wcmp_refl.
  rewrite filter_none; [done|]. intros r' Hr' Hk.
  destruct Hin as (k & Hk1 & Hk2); [by eauto|]. by apply (Hnot k).
Qed.

Lemma winsert_group_grouped keys rows r :
  StronglySorted (λ a b, cmp a b = Lt) keys →
  ((∃ r', r' ∈ rows ∧ cmp (key r') (key r) = Eq) → ∃ k, k ∈ keys ∧ cmp (key r) k = Eq) →
  ∃ keys', insert_group cmp key r (wgrouped cmp key keys rows)
             = wgrouped cmp key keys' (rows ++ [r])
           ∧ StronglySorted (λ a b, cmp a b = Lt) keys'
           ∧ (∀ k, k ∈ keys' → k = key r ∨ k ∈ keys)
           ∧ (∀ k, k ∈ keys → k ∈ keys')
           ∧ (∃ k, k ∈ keys' ∧ cmp (key r) k = Eq).
Proof.
  induction keys as [|k keys IH]; intros Hs Hin.
  - exists [key r]. split_and!.
    + rewrite wgrouped_cons. cbn. do 2 f_equal. symmetry.
      apply (wfilter_fresh []); [done|]. by intros k ?%elem_of_nil.
    + repeat constructor.
    + intros k ->%list_elem_of_singleton. by left.
    + by intros k ?%elem_of_nil.
    + exists (key r). split; [left|apply wcmp_refl].
  - apply StronglySorted_inv in Hs as [Hs Hk]. rewrite Forall_forall in Hk.
    rewrite wgrouped_cons. cbn [insert_group]. destruct (cmp (key r) k) eqn:E.
    + exists (k :: keys). split_and!.
      * rewrite wgrouped_cons, wfilter_snoc_eq by done. f_equal.
        symmetry. apply wgrouped_snoc_other. intros k' Hk'.
        rewrite (wcmp_congr _ _ _ E), (Hk k' Hk'). done.
      * constructor; [done|]. by apply Forall_forall.
      * auto.
      * auto.
      * exists k. split; [left|done].
    + assert (∀ k', k' ∈ k :: keys → cmp (key r) k' ≠ Eq) as Hnot.
      { intros k' [->|Hk']%elem_of_cons; [by rewrite E|].
        by rewrite (wcmp_trans _ k k' E (Hk k' Hk')). }
      exists (key r :: k :: keys). split_and!.
      * rewrite (wgrouped_cons (key r)), (wfilter_fresh (k :: keys)) by done.
        f_equal. rewrite <- wgrouped_cons. symmetry. by apply wgrouped_snoc_other.
      * constructor; [by constructor; [|apply Forall_forall]|].
        constructor; [done|]. apply Forall_forall. intros k' Hk'.
        by apply (wcmp_trans _ k), Hk.
      * intros k' [->|Hk']%elem_of_cons; auto.
      * intros k' Hk'. by right.
      * exists (key r). split; [left|apply wcmp_refl].
    + assert (cmp k (key r) = Lt) as E' by (by rewrite wcmp_antisym, E).
      destruct (IH Hs) as (keys' & Heq & Hs' & Hfrom & Hkeep & Hcov).
      { intros Hex. destruct (Hin Hex) as (k' & [->|Hk']%elem_of_cons & Hc); [|by eauto].
        by rewrite E in Hc. }
      exists (k :: keys'). split_and!.
      * rewrite Heq, wgrouped_cons, wfilter_snoc_ne; [done|]. by rewrite E.
      * constructor; [done|]. apply Forall_forall. intros k' [->|Hk']%Hfrom; auto.
      * intros k' [->|Hk']%elem_of_cons; [right; left|].
        destruct (Hfrom k' Hk'); [by left|right; by right].
      * intros k' [->|Hk']%elem_of_cons; [left|right; auto].
      * destruct Hcov as (k' & Hk' & Hc). exists k'. split; [by right|done].
Qed.

(** Grouping is the declarative split up to the order's equivalence: keys
    strictly ascending, every key the key of a row, every row in the group of
    the key it compares equal to. *)
Lemma wgroupby_grouped rows :
  ∃ keys, groupby cmp key rows = wgrouped cmp key keys rows
          ∧ StronglySorted (λ a b, cmp a b = Lt) keys
          ∧ (∀ k, k ∈ keys → ∃ r, r ∈ rows ∧ key r = k)
          ∧ (∀ r, r ∈ rows → ∃ k, k ∈ keys ∧ cmp (key r) k = Eq).
Proof.
  induction rows as [|r rows IH] using rev_ind.
  - exists []. split_and!; [done|constructor|by intros k ?%elem_of_nil|].
    by intros r ?%elem_of_nil.
  - destruct IH as (keys & Heq & Hs & Hfrom & Hcov).
    destruct (winsert_group_grouped keys rows r Hs)
      as (keys' & Heq' & Hs' & Hfrom' & Hkeep' & Hcov').
    { intros (r' & Hr' & Hc). destruct (Hcov r' Hr') as (k & Hk & Hc').
      exists k. split; [done|]. by rewrite <- (wcmp_congr _ _ _ Hc). }
    exists keys'. rewrite groupby_snoc, Heq. split_and!; [done..| |].
    + intros k [->|Hk]%Hfrom'.
      * exists r. split; [|done]. apply elem_of_app. right. left.
      * destruct (Hfrom k Hk) as (r' & Hr' & <-). exists r'.
        split; [|done]. apply elem_of_app. by left.
    + intros r' [Hr'| ->%list_elem_of_singleton]%elem_of_app; [|done].
      destruct (Hcov r' Hr') as (k & Hk & Hc). exists k. split; [auto|done].
Qed.
End groupby_weak.

#[export] Instance cmp_str_num_laws : WeakOrderLaws cmp_str_num.
Proof.
  split.
  - apply cmp_str_num_refl.
  - intros [a1 a2] [b1 b2]. unfold cmp_str_num. simpl.
    rewrite (cmp_antisym a1 b1). destruct (cmp_str a1 b1); simpl; [|done..].
    symmetry. apply Qcompare_antisym.
  - intros [a1 a2] [b1 b2] [c1 c2]. unfold cmp_str_num. simpl.
    destruct (cmp_str a1 b1) eqn:E1; [|intros _|done].
    + apply cmp_eq in E1 as ->. destruct (cmp_str b1 c1) eqn:E2; [|done..].
      rewrite <- !Qlt_alt. apply Qlt_trans.
    + destruct (cmp_str b1 c1) eqn:E2; [|intros _|done].
      * apply cmp_eq in E2 as ->. by rewrite E1.
      * by rewrite (cmp_trans a1 b1 c1 E1 E2).
  - intros [a1 a2] [b1 b2] [c1 c2]. unfold cmp_str_num. simpl.
    destruct (cmp_str a1 b1) eqn:E1; [|done..].
    apply cmp_eq in E1 as ->. intros H%Qeq_alt.
    destruct (cmp_str b1 c1); [|done..]. by rewrite H.
Qed.

(** ** The traces of a coloured bar chart *)

Lemma filter_fmap {A B} (f : A → B) (P : B → Prop) `{∀ x, Decision (P x)}
    (l : list A) :
  filter P (f <$> l) = f <$> filter (λ a, P (f a)) l.
Proof.
  induction l as [|a l IH]; [done|]. rewrite fmap_cons, !filter_cons.
  destruct (decide (P (f a))); by rewrite IH.
Qed.

Lemma add_point_split (c : string) (p : cell * Q)
    (rows : list (string * (cell * Q))) (names : list string) :
  NoDup names →
  (∀ row, row ∈ rows → row.1 = c → c ∈ names) →
  add_point c p
    ((λ n, {| name := n; legendgroup := n;
              points := (filter (λ row, row.1 = n) rows).*2 |}) <$> names)
  = (λ n, {| name := n; legendgroup := n;
             points := (filter (λ row, row.1 = n) (rows ++ [(c, p)])).*2 |})
      <$> (if decide (c ∈ names) then names else names ++ [c]).
Proof.
  induction names as [|n names IH]; intros Hnd Hin.
  - rewrite decide_False by apply not_elem_of_nil. simpl. do 2 f_equal.
    rewrite filter_app, filter_cons_True, filter_nil by done.
    rewrite filter_none; [done|]. intros row Hrow Heq.
    by apply (not_elem_of_nil c), (Hin row).
  - apply NoDup_cons in Hnd as [Hn Hnd]. rewrite fmap_cons. cbn [add_point name].
    destruct (decide (n = c)) as [->|Hne].
    + rewrite decide_True by left. rewrite fmap_cons. cbn [legendgroup points].
      f_equal.
      * f_equal. by rewrite filter_app, filter_cons_True, filter_nil, fmap_app.
      * apply list_fmap_ext. intros i n' Hn'. f_equal.
        rewrite filter_app, filter_cons_False, filter_nil, app_nil_r; [done|].
        simpl. intros ->. apply Hn. by eapply list_elem_of_lookup_2.
    + rewrite IH; [|done|].
      2:{ intros row Hrow Heq. apply Hin in Hrow; [|done].
          apply elem_of_cons in Hrow as [?|?]; [congruence|done]. }
      assert (filter (λ row : string * (cell * Q), row.1 = n) (rows ++ [(c, p)])
              = filter (λ row, row.1 = n) rows) as Hfn.
      { rewrite filter_app, filter_cons_False, filter_nil, app_nil_r; [done|].
        simpl. congruence. }
      destruct (decide (c ∈ names)) as [Hc|Hc].
      * rewrite decide_True by (by right). rewrite fmap_cons. by rewrite Hfn.
      * rewrite decide_False.
        2:{ intros [?|?]%elem_of_cons; [congruence|done]. }
        rewrite <- app_comm_cons, fmap_cons. by rewrite Hfn.
Qed.

(** One trace per value of the colour column, in order of first appearance,
    holding the rows of that value in frame order. *)
Lemma px_bar_color_traces (rows : list (string * (cell * Q))) x y title :
  data (px_bar_color rows x y title)
  = (λ n, {| name := n; legendgroup := n;
             points := (filter (λ row, row.1 = n) rows).*2 |})
      <$> Series_unique rows.*1.
Proof.
  unfold px_bar_color. cbn [data].
  induction rows as [|[c p] rows IH] using rev_ind; [done|].
  rewrite foldl_app, fmap_app. cbn [foldl fst snd fmap list_fmap].
  rewrite Series_unique_snoc, IH.
  apply add_point_split; [apply Series_unique_NoDup|].
  intros row Hrow <-. apply Series_unique_elem_of. by apply list_elem_of_fmap_2.
Qed.

Lemma Series_unique_sorted {K} `{EqDecision K} (cmp : K → K → comparison)
    `{!OrderLaws cmp} (l : list K) :
  StronglySorted (λ a b, cmp a b ≠ Gt) l →
  StronglySorted (λ a b, cmp a b = Lt) (Series_unique l).
Proof.
  induction l as [|c l IH] using rev_ind; [constructor|].
  rewrite StronglySorted_app. intros (Hle & Hs & _).
  rewrite Series_unique_snoc. destruct (decide (c ∈ Series_unique l)) as [Hc|Hc]; [auto|].
  apply StronglySorted_app_2; [|auto|repeat constructor].
  intros x1 x2 Hx1 ->%list_elem_of_singleton.
  assert (x1 ∈ l) as Hx1' by (by apply Series_unique_elem_of).
  specialize (Hle x1 c Hx1' ltac:(left)).
  destruct (cmp x1 c) eqn:E; [|done..].
  apply cmp_eq in E as ->. done.
Qed.

(** ** The fourth figure of the recession view *)

Lemma cmp_str_num_Eq_iff (a b : string * Q) :
  cmp_str_num a b = Eq ↔ a.1 = b.1 ∧ (a.2 == b.2)%Q.
Proof.
  unfold cmp_str_num. destruct (cmp_str a.1 b.1) eqn:E.
  - apply cmp_eq in E. rewrite <- Qeq_alt. tauto.
  - split; [done|]. intros [H _]. apply cmp_eq in H. congruence.
  - split; [done|]. intros [H _]. apply cmp_eq in H. congruence.
Qed.

Lemma cmp_str_num_Lt_fst (a b : string * Q) :
  cmp_str_num a b = Lt → cmp_str a.1 b.1 ≠ Gt.
Proof. unfold cmp_str_num. by destruct (cmp_str a.1 b.1). Qed.

Lemma sorted_fst (keys : list (string * Q)) :
  StronglySorted (λ a b, cmp_str_num a b = Lt) keys →
  StronglySorted (λ a b, cmp_str a b ≠ Gt) keys.*1.
Proof.
  induction 1 as [|k keys _ IH Hk]; [constructor|].
  rewrite fmap_cons. constructor; [done|].
  rewrite Forall_fmap. eapply Forall_impl; [done|].
  intros k'. apply cmp_str_num_Lt_fst.
Qed.

Lemma sorted_rates (keys : list (string * Q)) (v : string) :
  StronglySorted (λ a b, cmp_str_num a b = Lt) keys →
  StronglySorted Qlt (filter (λ k, k.1 = v) keys).*2.
Proof.
  induction 1 as [|k keys _ IH Hk]; [constructor|].
  rewrite filter_cons. destruct (decide (k.1 = v)) as [Hv|Hv]; [|done].
  rewrite fmap_cons. constructor; [done|].
  rewrite Forall_fmap, Forall_forall in *.
  intros k' [Hv' Hk']%list_elem_of_filter. specialize (Hk k' Hk').
  unfold cmp_str_num in Hk. rewrite Hv, Hv', cmp_str_refl in Hk.
  by apply Qlt_alt.
Qed.

(** When every trace name is mapped, renaming keeps the traces and their
    points and replaces each name by its display name. *)
Lemma for_each_update_result ts g ts' :
  (for_each update_trace ts g).2 = inr ts' →
  (∀ t, t ∈ ts → is_Some (vehicle_type_names !! name t))
  ∧ ts' = (λ t, {| name := default (name t) (vehicle_type_names !! name t);
                   legendgroup := default (name t) (vehicle_type_names !! name t);
                   points := points t |}) <$> ts.
Proof.
  revert ts'. induction ts as [|t ts IH]; intros ts' Hres.
  - injection Hres as <-. split; [by intros t ?%elem_of_nil|done].
  - simpl in Hres. destruct (vehicle_type_names !! name t) as [v|] eqn:Hv.
    + erewrite M_bind_inr in Hres by (by apply update_trace_Some).
      destruct (for_each update_trace ts g) as [g1 [e|ts1]] eqn:Hts.
      * by erewrite M_bind_inl in Hres by done.
      * erewrite M_bind_inr in Hres by done. injection Hres as <-.
        destruct (IH ts1 eq_refl) as [Hall ->]. split.
        -- intros t' [->|Ht']%elem_of_cons; [by rewrite Hv|auto].
        -- rewrite fmap_cons. by rewrite Hv.
    + by erewrite M_bind_inl in Hres by (by apply update_trace_None).
Qed.

(** The outcome of [recession_graphs] follows the renaming of the traces:
    its exception if it raises, else the four figures. *)
Lemma recession_graphs_outcome (csv : list SalesRecord) :
  (recession_graphs (startup csv)).2
  = match (for_each update_trace
             (data (px_bar_color
                ((λ row, (row.1.1, (CNum row.1.2, row.2)))
                   <$> agg_sum Automobile_Sales
                         (groupby cmp_str_num
                            (λ r, (Vehicle_Type r, unemployment_rate r))
                            (filter (λ r, Recession r = 1) csv)))
                "unemployment_rate" "Automobile_Sales"
                "Automobile Sales by Vehicle Type Per Unemployment Rate during Recession Periods"))
             (startup csv)).2 with
    | inl e => inl e
    | inr ts' =>
        inr [px_line
               (prod_map CInt id
                  <$> agg_mean Automobile_Sales
                        (groupby Z.compare Year (filter (λ r, Recession r = 1) csv)))
               "Year" "Automobile_Sales"
               "Average Automobile Sales by Year during Recession Periods"
               ["#C45A9A"];
             px_bar
               (prod_map (Series_map vehicle_type_names) id
                  <$> agg_mean Automobile_Sales
                        (groupby cmp_str Vehicle_Type
                           (filter (λ r, Recession r = 1) csv)))
               "Vehicle_Type" "Automobile_Sales"
               "Average Automobile Sales by Vehicle Type during Recession Periods"
               ["#C45A9A"];
             px_pie
               (prod_map (Series_map vehicle_type_names) id
                  <$> agg_sum Advertising_Expenditure
                        (groupby cmp_str Vehicle_Type
                           (filter (λ r, Recession r = 1) csv)))
               "Total Advertising Expenditure by Vehicle Type during Recession Periods";
             {| fig_kind := Bar;
                fig_title := "Automobile Sales by Vehicle Type Per Unemployment Rate during Recession Periods";
                xaxis_title := Some "Unemployment Rate";
                yaxis_title := Some "Automobile Sales";
                color_discrete_sequence := [];
                data := ts' |}]
    end.
Proof.
  unfold recession_graphs. erewrite (M_bind_inr global_df_rec) by reflexivity.
  change (df_rec (startup csv)) with (filter (λ r, Recession r = 1) csv).
  set (fig := px_bar_color _ _ _ _). unfold for_each_trace.
  destruct (for_each_update_pure (data fig)) as [[e|ts'] Hres]; rewrite Hres.
  - by erewrite (M_bind_inl (_ ≫= _)) by (by erewrite M_bind_inl by apply Hres).
  - by erewrite (M_bind_inr (_ ≫= _)) by (by erewrite M_bind_inr by apply Hres).
Qed.

(** The coloured bar chart before renaming, in terms of the raw rows: one
    trace per Vehicle_Type of the recession rows, one point per unemployment
    rate that occurs with this type. *)
Lemma bar2_traces (csv : list SalesRecord) x y title :
  ∃ (types : list string) (rates : string → list Q),
    ascending cmp_str types
    ∧ (∀ v, v ∈ types ↔ ∃ r, r ∈ csv ∧ Recession r = 1 ∧ Vehicle_Type r = v)
    ∧ (∀ v, StronglySorted Qlt (rates v))
    ∧ (∀ v u, u ∈ rates v →
         ∃ r, r ∈ csv ∧ Recession r = 1 ∧ Vehicle_Type r = v
              ∧ unemployment_rate r = u)
    ∧ (∀ r, r ∈ csv → Recession r = 1 →
         ∃ u, u ∈ rates (Vehicle_Type r) ∧ (unemployment_rate r == u)%Q)
    ∧ data (px_bar_color
              ((λ row, (row.1.1, (CNum row.1.2, row.2)))
                 <$> agg_sum Automobile_Sales
                       (groupby cmp_str_num
                          (λ r, (Vehicle_Type r, unemployment_rate r))
                          (filter (λ r, Recession r = 1) csv)))
              x y title)
      = (λ v, {| name := v; legendgroup := v;
                 points :=
                   (λ u, (CNum u,
                          sum_of Automobile_Sales
                            (λ r, Recession r = 1 ∧ Vehicle_Type r = v
                                  ∧ (unemployment_rate r == u)%Q) csv))
                     <$> rates v |}) <$> types.
Proof.
  destruct (group_keys_filter cmp_str Vehicle_Type (λ r, Recession r = 1) csv)
    as [Hasc Hin].
  set (d := filter (λ r, Recession r = 1) csv) in *.
  destruct (wgroupby_grouped cmp_str_num
              (λ r, (Vehicle_Type r, unemployment_rate r)) d)
    as (keys & Heq & Hs & Hfrom & Hcov).
  exists (group_keys cmp_str Vehicle_Type d),
         (λ v, (filter (λ k : string * Q, k.1 = v) keys).*2).
  split_and!; [done|done|..].
  - intros v. by apply sorted_rates.
  - intros v u ([v' u'] & [= ->] & [Hv Hk]%list_elem_of_filter)%list_elem_of_fmap.
    simpl in Hv. subst v'. destruct (Hfrom _ Hk) as (r & Hr & [= Hrv Hru]).
    apply list_elem_of_filter in Hr as [Hrec Hr]. by exists r.
  - intros r Hr Hrec.
    destruct (Hcov r) as ([v u] & Hk & [Hv Hu]%cmp_str_num_Eq_iff);
      [by apply list_elem_of_filter|].
    simpl in Hv, Hu. exists u. split; [|done].
    apply list_elem_of_fmap. exists (v, u). split; [done|].
    by apply list_elem_of_filter.
  - rewrite px_bar_color_traces, Heq.
    set (rows := _ <$> agg_sum _ _).
    assert (rows = (λ k : string * Q,
                      (k.1, (CNum k.2,
                             Qsum (Automobile_Sales
                                     <$> filter (λ r, cmp_str_num
                                                   (Vehicle_Type r, unemployment_rate r) k
                                                 = Eq) d))))
                     <$> keys) as Hrows.
    { subst rows. unfold agg_sum, wgrouped. by rewrite <- !list_fmap_compose. }
    assert (rows.*1 = keys.*1) as ->
      by (by rewrite Hrows, <- list_fmap_compose).
    rewrite Hrows. clear Hrows rows.
    assert (Series_unique keys.*1 = group_keys cmp_str Vehicle_Type d) as ->.
    { apply (strictly_sorted_unique cmp_str); [split| done |].
      - apply (Series_unique_sorted cmp_str). by apply sorted_fst.
      - apply Series_unique_NoDup.
      - intros v. rewrite Series_unique_elem_of, Hin, list_elem_of_fmap. split.
        + intros ([v' u] & -> & Hk). destruct (Hfrom _ Hk) as (r & Hr & [= Hrv Hru]).
          apply list_elem_of_filter in Hr as [Hrec Hr]. by exists r.
        + intros (r & Hr & Hrec & <-).
          destruct (Hcov r) as (k & Hk & [Hv Hu]%cmp_str_num_Eq_iff);
            [by apply list_elem_of_filter|].
          exists k. done. }
    apply list_fmap_ext. intros _ v _. f_equal.
    rewrite filter_fmap, <- !list_fmap_compose.
    erewrite (list_filter_iff _ (λ k : string * Q, k.1 = v)) by done.
    apply list_fmap_ext. intros i [v' u] Hk.
    apply list_elem_of_lookup_2, list_elem_of_filter in Hk as [Hv _].
    simpl in Hv. subst v'. simpl. f_equal. unfold sum_of. do 2 f_equal.
    subst d. rewrite list_filter_filter. apply list_filter_iff.
    intros r. rewrite cmp_str_num_Eq_iff. simpl. tauto.
Qed.

(** All four figures of a returning [recession_graphs], over one list of
    Vehicle_Types. *)
Lemma recession_graphs_figures (csv : list SalesRecord) (figs : list Figure) :
  (recession_graphs (startup csv)).2 = inr figs →
  ∃ (types : list string) (rates : string → list Q) (f1 : Figure),
    ascending cmp_str types
    ∧ (∀ v, v ∈ types ↔ ∃ r, r ∈ csv ∧ Recession r = 1 ∧ Vehicle_Type r = v)
    ∧ (∀ v, v ∈ types → is_Some (vehicle_type_names !! v))
    ∧ (∀ v, StronglySorted Qlt (rates v))
    ∧ (∀ v u, u ∈ rates v →
         ∃ r, r ∈ csv ∧ Recession r = 1 ∧ Vehicle_Type r = v
              ∧ unemployment_rate r = u)
    ∧ (∀ r, r ∈ csv → Recession r = 1 →
         ∃ u, u ∈ rates (Vehicle_Type r) ∧ (unemployment_rate r == u)%Q)
    ∧ figs =
        [f1;
         px_bar
           ((λ v, (Series_map vehicle_type_names v,
                   mean_of Automobile_Sales
                     (λ r, Recession r = 1 ∧ Vehicle_Type r = v) csv)) <$> types)
           "Vehicle_Type" "Automobile_Sales"
           "Average Automobile Sales by Vehicle Type during Recession Periods"
           ["#C45A9A"];
         px_pie
           ((λ v, (Series_map vehicle_type_names v,
                   sum_of Advertising_Expenditure
                     (λ r, Recession r = 1 ∧ Vehicle_Type r = v) csv)) <$> types)
           "Total Advertising Expenditure by Vehicle Type during Recession Periods";
         {| fig_kind := Bar;
            fig_title := "Automobile Sales by Vehicle Type Per Unemployment Rate during Recession Periods";
            xaxis_title := Some "Unemployment Rate";
            yaxis_title := Some "Automobile Sales";
            color_discrete_sequence := [];
            data :=
              (λ v, {| name := default v (vehicle_type_names !! v);
                       legendgroup := default v (vehicle_type_names !! v);
                       points :=
                         (λ u, (CNum u,
                                sum_of Automobile_Sales
                                  (λ r, Recession r = 1 ∧ Vehicle_Type r = v
                                        ∧ (unemployment_rate r == u)%Q) csv))
                           <$> rates v |}) <$> types |}].
Proof.
  intros Hret. rewrite recession_graphs_outcome in Hret.
  destruct (bar2_traces csv "unemployment_rate" "Automobile_Sales"
              "Automobile Sales by Vehicle Type Per Unemployment Rate during Recession Periods")
    as (types & rates & Hasc & Hin & Hsr & Hfrom & Hcov & Hdata).
  rewrite Hdata in Hret.
  destruct (for_each update_trace _ (startup csv)).2 as [e|ts'] eqn:Hfe; [done|].
  apply for_each_update_result in Hfe as [Hall ->]. injection Hret as <-.
  destruct (group_keys_filter cmp_str Vehicle_Type (λ r, Recession r = 1) csv)
    as [Hasc' Hin'].
  assert (group_keys cmp_str Vehicle_Type (filter (λ r, Recession r = 1) csv) = types)
    as Htypes.
  { apply (strictly_sorted_unique cmp_str); [done..|]. intros v. by rewrite Hin, Hin'. }
  exists types, rates. eexists. split_and!; [done|done| |done|done|done|].
  - intros v Hv.
    apply (Hall {| name := v; legendgroup := v;
                   points := (λ u, (CNum u,
                                    sum_of Automobile_Sales
                                      (λ r, Recession r = 1 ∧ Vehicle_Type r = v
                                            ∧ (unemployment_rate r == u)%Q) csv))
                               <$> rates v |}).
    apply list_elem_of_fmap. by exists v.
  - rewrite (agg_mean_filter cmp_str Vehicle_Type Automobile_Sales).
    rewrite (agg_sum_filter cmp_str Vehicle_Type Advertising_Expenditure).
    rewrite Htypes, <- !list_fmap_compose. reflexivity.
Qed.

(** X7. When [recession_graphs] returns, its fourth figure has one trace
    per Vehicle_Type of the recession rows, in ascending order of the raw
    label and named by the display name; the trace of a type has one bar per
    unemployment rate occurring with it, in ascending order, whose height is
    the sum of Automobile_Sales over the recession rows of that type and
    (numerically) that rate. *)
Theorem recession_bar_by_unemployment_rate (csv : list SalesRecord)
    (figs : list Figure)
    (Hret : (recession_graphs (startup csv)).2 = inr figs) :
  ∃ (types : list string) (rates : string → list Q) (f1 f2 f3 f4 : Figure),
    figs = [f1; f2; f3; f4]
    ∧ ascending cmp_str types
    ∧ (∀ v, v ∈ types ↔ ∃ r, r ∈ csv ∧ Recession r = 1 ∧ Vehicle_Type r = v)
    ∧ (∀ v, v ∈ types → is_Some (vehicle_type_names !! v))
    ∧ (∀ v, StronglySorted Qlt (rates v))
    ∧ (∀ v u, u ∈ rates v →
         ∃ r, r ∈ csv ∧ Recession r = 1 ∧ Vehicle_Type r = v
              ∧ unemployment_rate r = u)
    ∧ (∀ r, r ∈ csv → Recession r = 1 →
         ∃ u, u ∈ rates (Vehicle_Type r) ∧ (unemployment_rate r == u)%Q)
    ∧ data f4 =
        (λ v, {| name := default v (vehicle_type_names !! v);
                 legendgroup := default v (vehicle_type_names !! v);
                 points :=
                   (λ u, (CNum u,
                          sum_of Automobile_Sales
                            (λ r, Recession r = 1 ∧ Vehicle_Type r = v
                                  ∧ (unemployment_rate r == u)%Q) csv))
                     <$> rates v |}) <$> types.
Proof.
  destruct (recession_graphs_figures csv figs Hret)
    as (types & rates & f1 & Hasc & Hin & Hmap & Hsr & Hfrom & Hcov & ->).
  eexists types, rates, _, _, _, _. split_and!; [reflexivity|done..].
Qed.

Lemma recession_bar_by_unemployment_rate_witness :
  ∃ (figs : list Figure) (types : list string) (rates : string → list Q)
    (f1 f2 f3 f4 : Figure),
    (recession_graphs (startup sample_csv)).2 = inr figs
    ∧ figs = [f1; f2; f3; f4]
    ∧ ascending cmp_str types
    ∧ (∀ v, v ∈ types ↔ ∃ r, r ∈ sample_csv ∧ Recession r = 1 ∧ Vehicle_Type r = v)
    ∧ (∀ v, v ∈ types → is_Some (vehicle_type_names !! v))
    ∧ (∀ v, StronglySorted Qlt (rates v))
    ∧ (∀ v u, u ∈ rates v →
         ∃ r, r ∈ sample_csv ∧ Recession r = 1 ∧ Vehicle_Type r = v
              ∧ unemployment_rate r = u)
    ∧ (∀ r, r ∈ sample_csv → Recession r = 1 →
         ∃ u, u ∈ rates (Vehicle_Type r) ∧ (unemployment_rate r == u)%Q)
    ∧ data f4 =
        (λ v, {| name := default v (vehicle_type_names !! v);
                 legendgroup := default v (vehicle_type_names !! v);
                 points :=
                   (λ u, (CNum u,
                          sum_of Automobile_Sales
                            (λ r, Recession r = 1 ∧ Vehicle_Type r = v
                                  ∧ (unemployment_rate r == u)%Q) sample_csv))
                     <$> rates v |}) <$> types.
Proof.
  eexists.
  destruct (recession_bar_by_unemployment_rate sample_csv _ ltac:(vm_compute; reflexivity))
    as (types & rates & f1 & f2 & f3 & f4 & H).
  exists types, rates, f1, f2, f3, f4. split; [vm_compute; reflexivity|exact H].
Defined.

(** ** The legend of the fourth recession figure *)

Lemma vehicle_type_names_elem (k d : string) :
  vehicle_type_names !! k = Some d
  ↔ (k, d) ∈ [ ("Supperminicar", "Super Mini Car");
               ("Mediumfamilycar", "Medium Family Car");
               ("Smallfamiliycar", "Small Family Car");
               ("Sports", "Sports Car");
               ("Executivecar", "Executive Car") ].
Proof.
  unfold vehicle_type_names. symmetry. apply elem_of_list_to_map.
  apply (bool_decide_unpack _). vm_compute. exact I.
Qed.

(** The display-name table maps different raw labels to different names. *)
Lemma vehicle_type_names_inj (a b d : string) :
  vehicle_type_names !! a = Some d → vehicle_type_names !! b = Some d → a = b.
Proof.
  rewrite !vehicle_type_names_elem, !elem_of_cons, !elem_of_nil.
  intros Ha Hb.
  repeat (destruct Ha as [Ha|Ha]); try done; injection Ha as -> ->;
    repeat (destruct Hb as [Hb|Hb]); try done; by injection Hb as ->.
Qed.

(** X8. When [recession_graphs] returns, the legend of its fourth figure
    lists, in the same order, the categories of its bar chart and of its pie:
    the labels of the second and third figure are the names of the traces of
    the fourth.  The names are pairwise different, and each trace is its own
    legend group. *)
Theorem recession_legend_matches_categories (csv : list SalesRecord)
    (figs : list Figure)
    (Hret : (recession_graphs (startup csv)).2 = inr figs) :
  ∃ (f1 f2 f3 f4 : Figure) (bars slices : list (cell * Q)),
    figs = [f1; f2; f3; f4]
    ∧ data f2 = single bars
    ∧ data f3 = single slices
    ∧ bars.*1 = CStr <$> (name <$> data f4)
    ∧ slices.*1 = CStr <$> (name <$> data f4)
    ∧ NoDup (name <$> data f4)
    ∧ legendgroup <$> data f4 = name <$> data f4.
Proof.
  destruct (recession_graphs_figures csv figs Hret)
    as (types & rates & f1 & [_ Hnd] & _ & Hmap & _ & _ & _ & ->).
  eexists _, _, _, _, _, _. split_and!; [reflexivity..| | | |]; cbn [data].
  - rewrite <- !list_fmap_compose. apply list_fmap_ext. intros i v Hv. simpl.
    destruct (Hmap v) as [d Hd]; [by eapply list_elem_of_lookup_2|].
    unfold Series_map. by rewrite Hd.
  - rewrite <- !list_fmap_compose. apply list_fmap_ext. intros i v Hv. simpl.
    destruct (Hmap v) as [d Hd]; [by eapply list_elem_of_lookup_2|].
    unfold Series_map. by rewrite Hd.
  - rewrite <- list_fmap_compose. apply NoDup_fmap_2_strong; [|done].
    intros a b Ha Hb. simpl. destruct (Hmap a Ha) as [da Hda].
    destruct (Hmap b Hb) as [db Hdb]. rewrite Hda, Hdb. simpl. intros <-.
    by eapply vehicle_type_names_inj.
  - by rewrite <- !list_fmap_compose.
Qed.

Lemma recession_legend_matches_categories_witness :
  ∃ (figs : list Figure) (f1 f2 f3 f4 : Figure) (bars slices : list (cell * Q)),
    (recession_graphs (startup sample_csv)).2 = inr figs
    ∧ figs = [f1; f2; f3; f4]
    ∧ data f2 = single bars
    ∧ data f3 = single slices
    ∧ bars.*1 = CStr <$> (name <$> data f4)
    ∧ slices.*1 = CStr <$> (name <$> data f4)
    ∧ NoDup (name <$> data f4)
    ∧ legendgroup <$> data f4 = name <$> data f4.
Proof.
  eexists.
  destruct (recession_legend_matches_categories sample_csv _
              ltac:(vm_compute; reflexivity))
    as (f1 & f2 & f3 & f4 & bars & slices & H).
  exists f1, f2, f3, f4, bars, slices. split; [vm_compute; reflexivity|exact H].
Defined.

(** ** Which label the KeyError names *)

Lemma for_each_update_first_fail ts g k :
  (for_each update_trace ts g).2 = inl (KeyError k) →
  ∃ n1 n2 : list string,
    name <$> ts = n1 ++ k :: n2
    ∧ vehicle_type_names !! k = None
    ∧ (∀ n, n ∈ n1 → is_Some (vehicle_type_names !! n)).
Proof.
  induction ts as [|t ts IH]; [done|]. cbn [for_each].
  destruct (vehicle_type_names !! name t) as [v|] eqn:Hv.
  - erewrite M_bind_inr by (by apply update_trace_Some).
    destruct (for_each update_trace ts g) as [g1 [e|ts1]] eqn:Hts.
    + erewrite M_bind_inl by done. simpl. intros [= ->].
      destruct IH as (n1 & n2 & Hn & Hk & Hn1); [done|].
      exists (name t :: n1), n2. split_and!; [simpl; f_equal; exact Hn|done|].
      intros n [->|Hn']%elem_of_cons; [by rewrite Hv|auto].
    + by erewrite M_bind_inr by done.
  - erewrite M_bind_inl by (by apply update_trace_None). simpl. intros [= <-].
    exists [], (name <$> ts). split_and!; [done|done|by intros n ?%elem_of_nil].
Qed.

(** X9. When [recession_graphs] raises, the key of its [KeyError] is the
    least, in string order, of the unmapped Vehicle_Type labels of the
    recession rows. *)
Theorem recession_key_error_is_least_label (csv : list SalesRecord) (k : string)
    (Hraise : (recession_graphs (startup csv)).2 = inl (KeyError k)) :
  vehicle_type_names !! k = None
  ∧ (∃ r, r ∈ csv ∧ Recession r = 1 ∧ Vehicle_Type r = k)
  ∧ (∀ r, r ∈ csv → Recession r = 1 →
          vehicle_type_names !! Vehicle_Type r = None →
          cmp_str k (Vehicle_Type r) ≠ Gt).
Proof.
  rewrite recession_graphs_outcome in Hraise.
  destruct (bar2_traces csv "unemployment_rate" "Automobile_Sales"
              "Automobile Sales by Vehicle Type Per Unemployment Rate during Recession Periods")
    as (types & rates & [Hs _] & Hin & _ & _ & _ & Hdata).
  rewrite Hdata in Hraise.
  destruct (for_each update_trace _ (startup csv)).2 as [e|ts'] eqn:Hfe; [|done].
  injection Hraise as ->.
  apply for_each_update_first_fail in Hfe as (n1 & n2 & Hn & Hk & Hn1).
  rewrite <- list_fmap_compose in Hn. simpl in Hn.
  assert (types = n1 ++ k :: n2) as Htypes.
  { rewrite <- Hn. symmetry. apply list_fmap_id. }
  split_and!; [done| |].
  - apply Hin. rewrite Htypes. apply elem_of_app. right. left.
  - intros r Hr Hrec Hnone.
    assert (Vehicle_Type r ∈ types) as Hv by (apply Hin; eauto).
    rewrite Htypes in Hv, Hs.
    apply elem_of_app in Hv as [Hv|[->|Hv]%elem_of_cons].
    + destruct (Hn1 _ Hv) as [d Hd]. congruence.
    + by rewrite cmp_str_refl.
    + apply StronglySorted_app_1_r, StronglySorted_inv in Hs as [_ Hs].
      rewrite Forall_forall in Hs. by rewrite (Hs _ Hv).
Qed.

(** Two unmapped labels in recession rows, the greater one first. *)
Example recession_key_error_sample :
  (recession_graphs
     (startup [ row 2005 "Jan" "Van" 1 1 1 1;
                row 2005 "Feb" "Sports" 1 1 1 1;
                row 2005 "Mar" "Truck" 1 1 1 1 ])).2
  = inl (KeyError "Truck").
Proof. vm_compute. reflexivity. Qed.

Lemma recession_key_error_is_least_label_witness :
  vehicle_type_names !! "Truck" = None
  ∧ (∃ r, r ∈ truck_recession_csv ∧ Recession r = 1 ∧ Vehicle_Type r = "Truck")
  ∧ (∀ r, r ∈ truck_recession_csv → Recession r = 1 →
          vehicle_type_names !! Vehicle_Type r = None →
          cmp_str "Truck" (Vehicle_Type r) ≠ Gt).
Proof.
  apply (recession_key_error_is_least_label truck_recession_csv "Truck").
  vm_compute. reflexivity.
Defined.

(** ** Labels of the yearly view on a well-formed dataset *)

Lemma vehicle_type_names_keys (v : string) :
  is_Some (vehicle_type_names !! v) →
  v ∈ ["Supperminicar"; "Mediumfamilycar"; "Smallfamiliycar"; "Sports";
       "Executivecar"].
Proof.
  intros [d Hd]. apply vehicle_type_names_elem in Hd.
  rewrite !elem_of_cons, elem_of_nil in Hd. rewrite !elem_of_cons.
  repeat (destruct Hd as [Hd|Hd]); try done; injection Hd as -> ->; tauto.
Qed.

(** X11. On a dataset whose raw labels are all keys of the display-name
    table, the bar chart and the pie of [year_graphs] carry the same labels
    in the same order; each label is a display name of the table, no label is
    repeated and there are at most five of them. *)
Theorem year_labels_on_known_labels (csv : list SalesRecord) (y : Z)
    (Hlabels : known_labels csv) :
  ∃ (f1 f2 f3 f4 : Figure) (bars slices : list (cell * Q)),
    (year_graphs (Some y) (startup csv)).2 = inr [f1; f2; f3; f4]
    ∧ data f3 = single bars
    ∧ data f4 = single slices
    ∧ bars.*1 = slices.*1
    ∧ NoDup bars.*1
    ∧ (length bars ≤ 5)%nat
    ∧ (∀ c, c ∈ bars.*1 → ∃ v d, vehicle_type_names !! v = Some d ∧ c = CStr d).
Proof.
  destruct (year_graphs_bar_and_pie csv y)
    as (types & f1 & f2 & [_ Hnd] & Hin & Hres).
  assert (∀ v, v ∈ types → is_Some (vehicle_type_names !! v)) as Hmap.
  { intros v (r & Hr & _ & <-)%Hin. unfold known_labels in Hlabels.
    rewrite Forall_forall in Hlabels. auto. }
  eexists _, _, _, _, _, _. split_and!; [exact Hres|reflexivity|reflexivity|..].
  - by rewrite <- !list_fmap_compose.
  - rewrite <- list_fmap_compose. apply NoDup_fmap_2_strong; [|done].
    intros a b Ha Hb. simpl. unfold Series_map.
    destruct (Hmap a Ha) as [da Hda]. destruct (Hmap b Hb) as [db Hdb].
    rewrite Hda, Hdb. intros [= <-]. by eapply vehicle_type_names_inj.
  - rewrite length_fmap.
    change 5%nat with (length ["Supperminicar"; "Mediumfamilycar";
                               "Smallfamiliycar"; "Sports"; "Executivecar"]).
    apply submseteq_length, NoDup_submseteq; [done|].
    intros v Hv. by apply vehicle_type_names_keys, Hmap.
  - rewrite <- list_fmap_compose. intros c (v & -> & Hv)%list_elem_of_fmap.
    destruct (Hmap v Hv) as [d Hd]. exists v, d. split; [done|].
    simpl. unfold Series_map. by rewrite Hd.
Qed.

Lemma year_labels_on_known_labels_witness :
  ∃ (f1 f2 f3 f4 : Figure) (bars slices : list (cell * Q)),
    (year_graphs (Some 2005) (startup sample_csv)).2 = inr [f1; f2; f3; f4]
    ∧ data f3 = single bars
    ∧ data f4 = single slices
    ∧ bars.*1 = slices.*1
    ∧ NoDup bars.*1
    ∧ (length bars ≤ 5)%nat
    ∧ (∀ c, c ∈ bars.*1 → ∃ v d, vehicle_type_names !! v = Some d ∧ c = CStr d).
Proof.
  apply (year_labels_on_known_labels sample_csv 2005).
  unfold known_labels. repeat constructor; vm_compute; eauto.
Defined.
